(** * htmldom: the node / child-list kernel of [src/htmldom/node.py]

    A shallow embedding of the Python module: the object store is explicit,
    every [Node] object is a location, and every method is a computation in
    a small state-and-exception monad, written statement by statement as in
    the source. *)

From Stdlib Require Import Lia.
From stdpp Require Import base decidable option list functions gmap strings pretty.

Set Default Proof Using "Type".
#[local] Set Warnings "-clear-no-such-hyp".

(** ** Data model *)

(** A location is the identity of a [Node] object ([is] compares locations). *)
Definition loc := nat.

(** [class NodeType(Enum)] *)
Inductive NodeType := DOCUMENT | ELEMENT | ATTRIBUTE | PI | COMMENT | TEXT.

(** [@dataclass class _childrenlist]: [head] and [tail].  The iteration
    cursor [_tmp_head] lives only between [__iter__] and the last
    [__next__]; it is the [cur] argument of [iter_from] below. *)
Record _childrenlist := mk_childrenlist {
  head : option loc;
  tail : option loc
}.

(** The attributes set by [Node.__init__].  [children] is created fresh in
    [__init__] and never rebound, so it is held by value. *)
Record Node := mkNode {
  node_type : NodeType;
  parent : option loc;
  prev : option loc;
  next : option loc;
  name : string;
  children : _childrenlist;
  _cmap : gmap string loc
}.

(** The store: the objects by location, the number of objects allocated so
    far (locations below [nalloc] are live), and the class attribute
    [Node._count], an [itertools.count()] given by its next value. *)
Record State := mkState {
  heap : loc → Node;
  nalloc : nat;
  _count : nat
}.

(** Attribute assignments, one per attribute that the module writes. *)
Definition set_prev (v : option loc) (n : Node) : Node :=
  mkNode (node_type n) (parent n) v (next n) (name n) (children n) (_cmap n).
Definition set_next (v : option loc) (n : Node) : Node :=
  mkNode (node_type n) (parent n) (prev n) v (name n) (children n) (_cmap n).
Definition set_head (v : option loc) (n : Node) : Node :=
  mkNode (node_type n) (parent n) (prev n) (next n) (name n)
         (mk_childrenlist v (tail (children n))) (_cmap n).
Definition set_tail (v : option loc) (n : Node) : Node :=
  mkNode (node_type n) (parent n) (prev n) (next n) (name n)
         (mk_childrenlist (head (children n)) v) (_cmap n).
Definition set_cmap (m : gmap string loc) (n : Node) : Node :=
  mkNode (node_type n) (parent n) (prev n) (next n) (name n) (children n) m.

(** ** The monad: state and exceptions *)

Inductive exn := NotAChild | AttributeError | KeyError.

(** A call returns a value or raises; either way it leaves a store behind
    (an exception does not undo the assignments made before it). *)
Inductive outcome (A : Type) :=
| Ok (a : A) (s : State)
| Raise (e : exn) (s : State).
Arguments Ok {A} a s.
Arguments Raise {A} e s.

Definition M (A : Type) : Type := State → outcome A.

Definition ret {A} (a : A) : M A := λ s, Ok a s.
Definition bind {A B} (m : M A) (f : A → M B) : M B :=
  λ s, match m s with
       | Ok a s' => f a s'
       | Raise e s' => Raise e s'
       end.
Definition raise {A} (e : exn) : M A := λ s, Raise e s.

Notation "'let*' x ':=' m 'in' f" := (bind m (λ x, f))
  (at level 10, x name, m at level 100, f at level 200, only parsing).
Notation "m1 '>>' m2" := (bind m1 (λ _, m2))
  (at level 100, m2 at level 200, right associativity, only parsing).

Definition state_of {A} (o : outcome A) : State :=
  match o with Ok _ s => s | Raise _ s => s end.

(** [o.attr] on an object *)
Definition getattr {A} (f : Node → A) (o : loc) : M A :=
  λ s, Ok (f (heap s o)) s.
(** [o.attr = v] on an object *)
Definition setattr (upd : Node → Node) (o : loc) : M unit :=
  λ s, Ok tt (mkState (<[o := upd (heap s o)]> (heap s)) (nalloc s) (_count s)).
(** An attribute access through a reference that may be [None]. *)
Definition deref (r : option loc) : M loc :=
  match r with
  | Some o => ret o
  | None => raise AttributeError
  end.

(** ** [_childrenlist] *)

(** [isempty]: [self.head is None and self.tail is None] *)
Definition isempty (c : _childrenlist) : bool :=
  bool_decide (head c = None) && bool_decide (tail c = None).

(** [__iter__] / [__next__]: from the cursor, follow [next] until [None].
    The traversal is cut after [fuel] nodes; [None] is a traversal that did
    not reach the end of the chain within that many nodes. *)
Fixpoint iter_from (h : loc → Node) (fuel : nat) (cur : option loc)
  : option (list loc) :=
  match cur with
  | None => Some []
  | Some c =>
      match fuel with
      | 0 => None
      | S fuel' => (c ::.) <$> iter_from h fuel' (next (h c))
      end
  end.

(** [list(p.children)].  A chain of distinct live objects has at most
    [nalloc] nodes, so a traversal that needs more runs in a cycle. *)
Definition iterate (s : State) (p : loc) : option (list loc) :=
  iter_from (heap s) (nalloc s) (head (children (heap s p))).

(** [_childrenlist.append(self, node)], [self] being [p.children] *)
Definition append (p node : loc) : M unit :=
  let* t := getattr (tail ∘ children) p in
  setattr (set_prev t) node >>
  match t with
  | None => setattr (set_head (Some node)) p
  | Some tl => setattr (set_next (Some node)) tl
  end >>
  setattr (set_tail (Some node)) p >>
  setattr (set_next None) node.

(** [_childrenlist.insert_before(self, ref, new)] *)
Definition list_insert_before (p ref new : loc) : M unit :=
  setattr (set_next (Some ref)) new >>
  (let* rp := getattr prev ref in setattr (set_prev rp) new) >>
  setattr (set_prev (Some new)) ref >>
  (let* np := getattr prev new in
   match np with
   | Some q => setattr (set_next (Some new)) q
   | None => ret tt
   end) >>
  let* hd := getattr (head ∘ children) p in
  if decide (hd = Some ref) then setattr (set_head (Some new)) p else ret tt.

(** [_childrenlist.delete(self, node)]; the final [del node] only unbinds
    the local variable. *)
Definition delete (p node : loc) : M unit :=
  (let* hd := getattr (head ∘ children) p in
   if decide (hd ≠ Some node) then
     let* nx := getattr next node in
     let* np := getattr prev node in
     let* q := deref np in
     setattr (set_next nx) q
   else
     let* nx := getattr next node in
     setattr (set_head nx) p) >>
  let* tl := getattr (tail ∘ children) p in
  if decide (tl ≠ Some node) then
    let* np := getattr prev node in
    let* nx := getattr next node in
    let* q := deref nx in
    setattr (set_prev np) q
  else
    let* np := getattr prev node in
    setattr (set_tail np) p.

(** ** [Node] *)

(** [make_name]: [next(Node._count)], and the lower-cased class name,
    which is [node] for every instance of [Node]. *)
Definition make_name (self : loc) : M string :=
  λ s, Ok ("node_" +:+ pretty (_count s))
          (mkState (heap s) (nalloc s) (S (_count s))).

(** Allocation of the object that [__init__] then fills in. *)
Definition alloc : M loc :=
  λ s, Ok (nalloc s) (mkState (heap s) (S (nalloc s)) (_count s)).

(** [Node(node_type, parent)]: allocation followed by [__init__]. *)
Definition new_node (t : NodeType) (par : option loc) : M loc :=
  let* self := alloc in
  let* nm := make_name self in
  setattr (λ _, mkNode t par None None nm (mk_childrenlist None None) ∅) self >>
  ret self.

(** [has_children] *)
Definition has_children (self : loc) : M bool :=
  let* c := getattr children self in ret (negb (isempty c)).

(** [has_as_child], on a name; given a node the caller passes its name *)
Definition has_as_child (self : loc) (nm : string) : M bool :=
  let* m := getattr _cmap self in ret (bool_decide (is_Some (m !! nm))).

(** [fetch_child_by_name] *)
Definition fetch_child_by_name (self : loc) (nm : string) : M (option loc) :=
  let* m := getattr _cmap self in ret (m !! nm).

(** [self._cmap[k] = v] *)
Definition cmap_setitem (self : loc) (k : string) (v : loc) : M unit :=
  let* m := getattr _cmap self in setattr (set_cmap (<[k := v]> m)) self.

(** [self._cmap.pop(k)], which raises [KeyError] on a missing key *)
Definition cmap_pop (self : loc) (k : string) : M loc :=
  let* m := getattr _cmap self in
  match m !! k with
  | Some v => setattr (set_cmap (base.delete k m)) self >> ret v
  | None => raise KeyError
  end.

(** [Node.insert_before(self, new, ref=None)] *)
Definition insert_before (self new : loc) (ref : option loc) : M loc :=
  let* inserted :=
    match ref with
    | None => append self new >> ret true
    | Some r =>
        let* rn := getattr name r in
        let* b := has_as_child self rn in
        if b then list_insert_before self r new >> ret true else ret false
    end in
  if inserted then
    let* nn := getattr name new in
    cmap_setitem self nn new >> ret new
  else raise NotAChild.

(** The decorator [child_existence_required] around a method body *)
Definition child_existence_required {A} (method : loc → loc → M A)
  (self child : loc) : M A :=
  let* cn := getattr name child in
  let* b := has_as_child self cn in
  if b then method self child else raise NotAChild.

(** [Node.replace_child(self, old, new)] *)
Definition replace_child (self old new : loc) : M loc :=
  child_existence_required (λ self old,
    list_insert_before self old new >>
    (let* nn := getattr name new in cmap_setitem self nn new) >>
    delete self old >>
    (let* on := getattr name old in cmap_pop self on) >>
    ret old) self old.

(** [Node.remove_child(self, child)] *)
Definition remove_child (self child : loc) : M loc :=
  child_existence_required (λ self child,
    delete self child >>
    (let* cn := getattr name child in cmap_pop self cn) >>
    ret child) self child.

(** ** Programs: sequences of API calls *)

Inductive call :=
| New (t : NodeType) (par : option loc)
| MakeName (self : loc)
| InsertBefore (self new : loc) (ref : option loc)
| ReplaceChild (self old new : loc)
| RemoveChild (self child : loc).

(** The store after a call, whether it returned or raised. *)
Definition exec (c : call) (s : State) : State :=
  match c with
  | New t par => state_of (new_node t par s)
  | MakeName self => state_of (make_name self s)
  | InsertBefore self new ref => state_of (insert_before self new ref s)
  | ReplaceChild self old new => state_of (replace_child self old new s)
  | RemoveChild self child => state_of (remove_child self child s)
  end.

Definition run (cs : list call) (s : State) : State :=
  foldl (λ s c, exec c s) s cs.

(** The store of a process that has not created any node.  Locations that
    are not live hold a placeholder which no live object refers to. *)
Definition blank : Node :=
  mkNode ELEMENT None None None "" (mk_childrenlist None None) ∅.
Definition initial : State := mkState (λ _, blank) 0 0.

(** ** Reading the attributes of an object in a store *)

Section Attributes.
Implicit Types (s : State) (p c node ref new : loc).

Definition prev_of s c := prev (heap s c).
Definition next_of s c := next (heap s c).
Definition head_of s c := head (children (heap s c)).
Definition tail_of s c := tail (children (heap s c)).
Definition name_of s c := name (heap s c).
Definition cmap_of s c := _cmap (heap s c).

(** Attributes that the list operations never write. *)
Definition same_frame s s' : Prop :=
  nalloc s' = nalloc s ∧ _count s' = _count s ∧
  ∀ c, name_of s' c = name_of s c ∧ parent (heap s' c) = parent (heap s c) ∧
       node_type (heap s' c) = node_type (heap s c).

End Attributes.

(** ** Chains: the sibling list as a sequence of objects *)

(** First element of [l], or what follows the segment when [l] is empty. *)
Definition hd_or (l : list loc) (n : option loc) : option loc :=
  match l with [] => n | c :: _ => Some c end.
(** Last element of [l], or what precedes the segment when [l] is empty. *)
Definition lst_or (l : list loc) (p : option loc) : option loc :=
  match last l with Some c => Some c | None => p end.

(** [seg s p l n]: the objects of [l] are linked in this order by [prev] and
    [next]; [p] is the [prev] of the first and [n] the [next] of the last. *)
Fixpoint seg (s : State) (p : option loc) (l : list loc) (n : option loc)
  : Prop :=
  match l with
  | [] => True
  | c :: l' => prev_of s c = p ∧ next_of s c = hd_or l' n ∧ seg s (Some c) l' n
  end.

(** [l] is the content of a child list with the given [head] and [tail]. *)
Definition dll (s : State) (l : list loc) (hd tl : option loc) : Prop :=
  NoDup l ∧ hd = hd_or l None ∧ tl = last l ∧ seg s None l None.

(** ** The tree invariant *)

(** The name [make_name] builds from the counter value [k]. *)
Definition mk_name (k : nat) : string := "node_" +:+ pretty k.

Definition live (s : State) (c : loc) : Prop := c < nalloc s.

(** [kids p] is the content of the child list of [p].  Child lists are
    well-linked chains of live objects, no object is in two of them or
    twice in one, each index holds exactly the children by name, and live
    objects have pairwise different names made from past counter values. *)
Record InvK (s : State) (kids : loc → list loc) : Prop := mkInvK {
  inv_dll : ∀ p, live s p → dll s (kids p) (head_of s p) (tail_of s p);
  inv_live : ∀ p c, live s p → c ∈ kids p → live s c;
  inv_disj : ∀ p q c, live s p → live s q → c ∈ kids p → c ∈ kids q → p = q;
  inv_cmap : ∀ p k v, live s p →
    cmap_of s p !! k = Some v ↔ v ∈ kids p ∧ name_of s v = k;
  inv_name : ∀ a b, live s a → live s b → name_of s a = name_of s b → a = b;
  inv_count : ∀ a, live s a → ∃ k, k < _count s ∧ name_of s a = mk_name k
}.

Definition Inv (s : State) : Prop := ∃ kids, InvK s kids.

(** [c] is in no child list. *)
Definition detached (s : State) (kids : loc → list loc) (c : loc) : Prop :=
  ∀ q, live s q → c ∉ kids q.

(** ** Disciplined programs *)

(** What [has_as_child] answers for the name of [x]. *)
Definition registered (s : State) (self x : loc) : bool :=
  bool_decide (is_Some (cmap_of s self !! name_of s x)).

(** [c] is met when iterating the children of [p].  An iteration that does
    not end cannot show that [c] is absent. *)
Definition in_children (s : State) (p c : loc) : bool :=
  match iterate s p with
  | Some l => bool_decide (c ∈ l)
  | None => true
  end.

(** [c] is in the child list of no live object. *)
Definition unattached (s : State) (c : loc) : bool :=
  forallb (λ p, negb (in_children s p c)) (seq 0 (nalloc s)).

Definition is_live (s : State) (c : loc) : bool := bool_decide (c < nalloc s).

(** The arguments of the call denote objects that exist. *)
Definition live_args (s : State) (c : call) : bool :=
  match c with
  | New _ par => from_option (is_live s) true par
  | MakeName self => is_live s self
  | InsertBefore self new ref =>
      is_live s self && is_live s new && from_option (is_live s) true ref
  | ReplaceChild self old new => is_live s self && is_live s old && is_live s new
  | RemoveChild self child => is_live s self && is_live s child
  end.

(** The node that the call attaches, if it attaches one, is in no child
    list.  A call that fails its guard attaches nothing. *)
Definition attaches_unattached (s : State) (c : call) : bool :=
  match c with
  | InsertBefore _ new None => unattached s new
  | InsertBefore self new (Some x) | ReplaceChild self x new =>
      if registered s self x then unattached s new else true
  | _ => true
  end.

(** A program whose calls are all on existing objects. *)
Fixpoint well_typed (s : State) (cs : list call) : bool :=
  match cs with
  | [] => true
  | c :: cs' => live_args s c && well_typed (exec c s) cs'
  end.

(** A program that, moreover, only ever attaches unattached nodes. *)
Fixpoint disciplined (s : State) (cs : list call) : bool :=
  match cs with
  | [] => true
  | c :: cs' =>
      live_args s c && attaches_unattached s c && disciplined (exec c s) cs'
  end.

(** ** The properties of the specification *)

(** The index of [p] holds exactly the names of the iterated children. *)
Definition index_matches_children (s : State) (p : loc) : Prop :=
  ∃ l, iterate s p = Some l ∧
       dom (cmap_of s p) =@{gset string} list_to_set (name_of s <$> l).

(** The doubly-linked condition on a child list with content [l]:
    [c.prev.next is c] for [c] not the head, [c.next.prev is c] for [c] not
    the tail, [head.prev] and [tail.next] are absent, and [head], [tail] are
    both absent exactly when the list is empty. *)
Definition doubly_linked (s : State) (p : loc) (l : list loc) : Prop :=
  Forall (λ c, head_of s p ≠ Some c → prev_of s c ≫= next_of s = Some c) l ∧
  Forall (λ c, tail_of s p ≠ Some c → next_of s c ≫= prev_of s = Some c) l ∧
  head_of s p ≫= prev_of s = None ∧
  tail_of s p ≫= next_of s = None ∧
  (head_of s p = None ∧ tail_of s p = None ↔ l = []).

Definition doubly_linked_children (s : State) (p : loc) : Prop :=
  ∃ l, iterate s p = Some l ∧ doubly_linked s p l.

(** No node is met when iterating the children of two different nodes. *)
Definition single_parent (s : State) : Prop :=
  ∀ c p q l1 l2,
    live s p → live s q →
    iterate s p = Some l1 → c ∈ l1 → iterate s q = Some l2 → c ∈ l2 → p = q.

(** A parent [0] with the children [1; 2] in order, and a lone node [3]. *)
Definition family : list call :=
  [New DOCUMENT None; New ELEMENT (Some 0); New ELEMENT (Some 0);
   New ELEMENT None; InsertBefore 0 1 None; InsertBefore 0 2 None].

#[global] Instance doubly_linked_dec s p l : Decision (doubly_linked s p l).
Proof. unfold doubly_linked. apply _. Defined.

(** Re-inserting a child: [0] has the children [1; 2] and [1] is appended
    once more. *)
Definition reinsertion : list call := family ++ [InsertBefore 0 1 None].

(** Both children appended once more: [0] again iterates [1; 2], but the
    [prev] of the head [1] is left referring to [2]. *)
Definition double_reinsertion : list call :=
  family ++ [InsertBefore 0 1 None; InsertBefore 0 2 None].

(** The same node appended to the child lists of two parents. *)
Definition two_parents : list call :=
  [New DOCUMENT None; New DOCUMENT None; New ELEMENT None;
   InsertBefore 0 2 None; InsertBefore 1 2 None].

(** The name that the specification describes: the lowercase tag of the
    node type, an underscore, and the counter value. *)
Definition spec_lowercase_tag (t : NodeType) : string :=
  match t with
  | DOCUMENT => "document"
  | ELEMENT => "element"
  | ATTRIBUTE => "attribute"
  | PI => "pi"
  | COMMENT => "comment"
  | TEXT => "text"
  end.
Definition spec_name (t : NodeType) (k : nat) : string :=
  spec_lowercase_tag t +:+ "_" +:+ pretty k.

(** A program that only constructs nodes. *)
Definition constructions (ts : list (NodeType * option loc)) : list call :=
  (λ tp, New tp.1 tp.2) <$> ts.

(** ** Which exceptions a computation can raise, and what it leaves alone *)

(** [m] never raises [NotAChild]. *)
Definition no_NotAChild {X : Type} (m : M X) : Prop :=
  ∀ s s', m s ≠ Raise NotAChild s'.

(** [m] never assigns [parent]. *)
Definition keeps_parent {X : Type} (m : M X) : Prop :=
  ∀ s c, parent (heap (state_of (m s)) c) = parent (heap s c).

(** [m] never lowers the counter. *)
Definition counts_up {X : Type} (m : M X) : Prop :=
  ∀ s, _count s ≤ _count (state_of (m s)).

(** ** The rest of the module: sibling accessors, the iterator protocol,
    [first_child] *)

(** [previous_sibling] and [next_sibling]: [None or self.prev] evaluates to
    [self.prev]. *)
Definition previous_sibling (self : loc) : M (option loc) := getattr prev self.
Definition next_sibling (self : loc) : M (option loc) := getattr next self.

(** The attribute [_tmp_head] of a [_childrenlist].  [__post_init__] assigns
    [_temp_head], which nothing reads, so [_tmp_head] does not exist until
    [__iter__] has run. *)
Inductive cursor := NoCursor | Cursor (c : option loc).

(** A store together with the cursor of every child list; the child list
    of [p] is named by [p]. *)
Record IterState := mkIterState {
  store : State;
  _tmp_head : loc → cursor
}.

(** What a step of the iterator protocol does: it returns, raises
    [StopIteration], or raises [AttributeError] on the missing cursor. *)
Inductive iter_result (A : Type) :=
| Return (a : A)
| StopIteration
| NoAttribute.
Arguments Return {A} a.
Arguments StopIteration {A}.
Arguments NoAttribute {A}.

(** [_childrenlist.__iter__]: [self._tmp_head = self.head; return self] *)
Definition list_iter (p : loc) (σ : IterState) : IterState :=
  mkIterState (store σ) (<[p := Cursor (head_of (store σ) p)]> (_tmp_head σ)).

(** [_childrenlist.__next__] *)
Definition list_next (p : loc) (σ : IterState) : iter_result loc * IterState :=
  match _tmp_head σ p with
  | NoCursor => (NoAttribute, σ)
  | Cursor (Some node) =>
      (Return node,
       mkIterState (store σ)
         (<[p := Cursor (next_of (store σ) node)]> (_tmp_head σ)))
  | Cursor None => (StopIteration, σ)
  end.

(** Calling [__next__] until it raises, as a [for] loop or [list(...)] does
    on the iterator; [None] when the cursor is missing or more than [fuel]
    nodes come. *)
Fixpoint drain (fuel : nat) (p : loc) (σ : IterState)
  : option (list loc) * IterState :=
  match list_next p σ with
  | (Return c, σ') =>
      match fuel with
      | 0 => (None, σ')
      | S fuel' =>
          let r := drain fuel' p σ' in ((c ::.) <$> r.1, r.2)
      end
  | (StopIteration, σ') => (Some [], σ')
  | (NoAttribute, σ') => (None, σ')
  end.

(** The decorator [children_required]: the method runs when [has_children]
    is true, and the wrapper returns [None] otherwise. *)
Definition children_required {A}
    (method : loc → IterState → iter_result A * IterState)
    (self : loc) (σ : IterState) : iter_result (option A) * IterState :=
  match has_children self (store σ) with
  | Ok true _ =>
      match method self σ with
      | (Return a, σ') => (Return (Some a), σ')
      | (StopIteration, σ') => (StopIteration, σ')
      | (NoAttribute, σ') => (NoAttribute, σ')
      end
  | _ => (Return None, σ)
  end.

(** [first_child]: [children = iter(self.children); return next(children)] *)
Definition first_child (self : loc) (σ : IterState)
  : iter_result (option loc) * IterState :=
  children_required (λ self σ, list_next self (list_iter self σ)) self σ.

(** [Node(node_type, parent)] in a store with cursors: the new child list
    has no [_tmp_head]. *)
Definition construct (t : NodeType) (par : option loc) (σ : IterState)
  : loc * IterState :=
  let self := nalloc (store σ) in
  (self, mkIterState (state_of (new_node t par (store σ)))
                     (<[self := NoCursor]> (_tmp_head σ))).

(** ** Outcomes of calls *)

(** The exception a call ended with, if any. *)
Definition raised {A} (o : outcome A) : option exn :=
  match o with Ok _ _ => None | Raise e _ => Some e end.

Definition call_raised (k : call) (s : State) : option exn :=
  match k with
  | New t par => raised (new_node t par s)
  | MakeName self => raised (make_name self s)
  | InsertBefore self new ref => raised (insert_before self new ref s)
  | ReplaceChild self old new => raised (replace_child self old new s)
  | RemoveChild self child => raised (remove_child self child s)
  end.

(** [m] never assigns the attribute read by [f]. *)
Definition keeps {A X : Type} (f : Node → A) (m : M X) : Prop :=
  ∀ s c, f (heap (state_of (m s)) c) = f (heap s c).

(** [m] neither allocates nor draws from the counter. *)
Definition keeps_counters {X : Type} (m : M X) : Prop :=
  ∀ s, nalloc (state_of (m s)) = nalloc s ∧ _count (state_of (m s)) = _count s.

(** [m] raises no exception outside [E]. *)
Definition raises_only {X : Type} (E : exn → Prop) (m : M X) : Prop :=
  ∀ s e s', m s = Raise e s' → E e.

(** Live objects have pairwise different names, built from past values of
    the counter. *)
Definition names_unique (s : State) : Prop :=
  (∀ a b, live s a → live s b → name_of s a = name_of s b → a = b) ∧
  (∀ a, live s a → ∃ k, k < _count s ∧ name_of s a = mk_name k).

(** * Proofs *)

(** ** What the list operations do to each attribute *)

Ltac unfold_attrs :=
  unfold prev_of, next_of, head_of, tail_of, name_of, cmap_of in *.
Ltac run_calls :=
  cbv [bind ret raise getattr setattr deref compose state_of].
Ltac run_monad := run_calls; simpl.

(** Reading an attribute after an assignment [o.attr = v]. *)
Lemma attr_frame {A} (f : Node → A) (u : Node → Node) (h : loc → Node) o c :
  (∀ n, f (u n) = f n) → f ((<[o := u (h o)]> h) c) = f (h c).
Proof.
  intros Hu. unfold insert, fn_insert.
  destruct (decide (o = c)) as [->|]; [apply Hu|done].
Qed.

Lemma attr_hit {A} (f : Node → A) (n : Node) (h : loc → Node) o c :
  f ((<[o := n]> h) c) = if decide (c = o) then f n else f (h c).
Proof.
  unfold insert, fn_insert.
  destruct (decide (o = c)), (decide (c = o)); congruence.
Qed.

Ltac attr_simpl :=
  repeat (match goal with
          | |- context [?f ((<[?o := ?u (?h ?o)]> ?h) ?c)] =>
              lazymatch f with
              | prev => idtac | next => idtac | children => idtac
              | _cmap => idtac | name => idtac | parent => idtac
              | node_type => idtac
              end;
              first [ rewrite (attr_frame f u h o c) by (intros; reflexivity)
                    | rewrite (attr_hit f (u (h o)) h o c); simpl ]
          end).
Ltac split_cases :=
  repeat (match goal with
          | |- context [decide ?P] => destruct (decide P); subst; simpl in *
          end);
  try tauto; try congruence; try (intuition congruence).
Ltac goal_decide :=
  repeat (match goal with
          | |- context [decide ?P] => destruct (decide P); subst
          end).
Ltac attr_cases :=
  repeat (first [intro | split]); simpl; attr_simpl; split_cases.
Ltac finish_spec :=
  eexists; split; [reflexivity|]; split;
  [split; [done|split; [done|attr_cases]]|attr_cases].

Lemma append_spec s p node :
  ∃ s', append p node s = Ok tt s' ∧ same_frame s s' ∧
    (∀ c, prev_of s' c = if decide (c = node) then tail_of s p else prev_of s c) ∧
    (∀ c, next_of s' c = if decide (c = node) then None
                         else if decide (tail_of s p = Some c) then Some node
                              else next_of s c) ∧
    (∀ c, head_of s' c = if decide (c = p)
                         then match tail_of s p with
                              | None => Some node
                              | Some _ => head_of s p
                              end
                         else head_of s c) ∧
    (∀ c, tail_of s' c = if decide (c = p) then Some node else tail_of s c) ∧
    (∀ c, cmap_of s' c = cmap_of s c).
Proof.
  unfold append, same_frame. unfold_attrs. run_monad.
  destruct (tail (children (heap s p))) as [tl|] eqn:Ht; run_monad; finish_spec.
Qed.

Lemma list_insert_before_total s p ref new :
  ∃ s', list_insert_before p ref new s = Ok tt s'.
Proof.
  unfold list_insert_before. run_monad.
  repeat (case_match; run_monad); eauto.
Qed.

Lemma list_insert_before_spec s p ref new :
  new ≠ ref →
  ∃ s', list_insert_before p ref new s = Ok tt s' ∧ same_frame s s' ∧
    (∀ c, prev_of s' c = if decide (c = ref) then Some new
                         else if decide (c = new) then prev_of s ref
                              else prev_of s c) ∧
    (∀ c, next_of s' c = if decide (prev_of s ref = Some c) then Some new
                         else if decide (c = new) then Some ref
                              else next_of s c) ∧
    (∀ c, head_of s' c = if decide (c = p ∧ head_of s p = Some ref)
                         then Some new else head_of s c) ∧
    (∀ c, tail_of s' c = tail_of s c) ∧
    (∀ c, cmap_of s' c = cmap_of s c).
Proof.
  intros Hne. unfold list_insert_before, same_frame. unfold_attrs. run_monad.
  attr_simpl.
  destruct (decide (new = ref)) as [|_]; [done|].
  destruct (decide (new = new)) as [_|]; [|done].
  destruct (prev (heap s ref)) as [q|] eqn:Hq; run_monad; attr_simpl;
    (destruct (decide (head (children (heap s p)) = Some ref)); run_monad);
    finish_spec.
Qed.

Lemma delete_spec s p node :
  (head_of s p ≠ Some node → is_Some (prev_of s node)) →
  (tail_of s p ≠ Some node → is_Some (next_of s node)) →
  ∃ s', delete p node s = Ok tt s' ∧ same_frame s s' ∧
    (∀ c, prev_of s' c =
            if decide (tail_of s p ≠ Some node ∧ next_of s node = Some c)
            then prev_of s node else prev_of s c) ∧
    (∀ c, next_of s' c =
            if decide (head_of s p ≠ Some node ∧ prev_of s node = Some c)
            then next_of s node else next_of s c) ∧
    (∀ c, head_of s' c = if decide (c = p ∧ head_of s p = Some node)
                         then next_of s node else head_of s c) ∧
    (∀ c, tail_of s' c = if decide (c = p ∧ tail_of s p = Some node)
                         then prev_of s node else tail_of s c) ∧
    (∀ c, cmap_of s' c = cmap_of s c).
Proof.
  unfold delete, same_frame. unfold_attrs. intros Hp Hn. run_monad.
  destruct (decide (head (children (heap s p)) ≠ Some node)) as [Hh|Hh].
  - destruct (Hp Hh) as [q Hq]; rewrite Hq; run_monad; attr_simpl.
    destruct (decide (tail (children (heap s p)) ≠ Some node)) as [Htl|Htl].
    + destruct (Hn Htl) as [r Hr]. run_monad; attr_simpl. rewrite Hr.
      destruct (decide (node = q)); run_monad; finish_spec.
    + run_monad. finish_spec.
  - run_monad; attr_simpl. destruct (decide (p = p)) as [_|]; [|done]. simpl.
    destruct (decide (tail (children (heap s p)) ≠ Some node)) as [Htl|Htl].
    + destruct (Hn Htl) as [r Hr]. run_monad; attr_simpl. rewrite Hr.
      run_monad. finish_spec.
    + run_monad. finish_spec.
Qed.

Lemma same_frame_refl s : same_frame s s.
Proof. by unfold same_frame. Qed.

Lemma same_frame_trans s1 s2 s3 :
  same_frame s1 s2 → same_frame s2 s3 → same_frame s1 s3.
Proof.
  intros (Ha & Hc & H12) (Ha' & Hc' & H23). split_and!; [congruence..|].
  intros c. destruct (H12 c) as (? & ? & ?), (H23 c) as (? & ? & ?).
  split_and!; congruence.
Qed.

Lemma cmap_setitem_spec s p k v :
  ∃ s', cmap_setitem p k v s = Ok tt s' ∧ same_frame s s' ∧
    (∀ c, prev_of s' c = prev_of s c) ∧
    (∀ c, next_of s' c = next_of s c) ∧
    (∀ c, head_of s' c = head_of s c) ∧
    (∀ c, tail_of s' c = tail_of s c) ∧
    (∀ c, cmap_of s' c = if decide (c = p) then <[k := v]> (cmap_of s p)
                         else cmap_of s c).
Proof.
  unfold cmap_setitem, same_frame. unfold_attrs. run_monad. finish_spec.
Qed.

Lemma cmap_pop_spec s p k v :
  cmap_of s p !! k = Some v →
  ∃ s', cmap_pop p k s = Ok v s' ∧ same_frame s s' ∧
    (∀ c, prev_of s' c = prev_of s c) ∧
    (∀ c, next_of s' c = next_of s c) ∧
    (∀ c, head_of s' c = head_of s c) ∧
    (∀ c, tail_of s' c = tail_of s c) ∧
    (∀ c, cmap_of s' c = if decide (c = p) then base.delete k (cmap_of s p)
                         else cmap_of s c).
Proof.
  unfold cmap_pop, same_frame. unfold_attrs. intros Hk. run_monad.
  rewrite Hk. run_monad. finish_spec.
Qed.

Lemma cmap_pop_missing s p k :
  cmap_of s p !! k = None → cmap_pop p k s = Raise KeyError s.
Proof.
  unfold cmap_pop. unfold_attrs. intros Hk. run_monad. by rewrite Hk.
Qed.

(** From here on the steps are used through their specifications. *)
#[global] Arguments append : simpl never.
#[global] Arguments list_insert_before : simpl never.
#[global] Arguments delete : simpl never.
#[global] Arguments cmap_setitem : simpl never.
#[global] Arguments cmap_pop : simpl never.

(** ** Chains *)

Section Chains.
Implicit Types (s : State) (l : list loc) (p n : option loc) (c : loc).

Lemma hd_or_app l1 l2 n : hd_or (l1 ++ l2) n = hd_or l1 (hd_or l2 n).
Proof. by destruct l1. Qed.

Lemma lst_or_nil p : lst_or [] p = p.
Proof. done. Qed.

Lemma lst_or_cons c l p : lst_or (c :: l) p = lst_or l (Some c).
Proof. unfold lst_or. rewrite last_cons. by destruct (last l). Qed.

Lemma lst_or_snoc l c p : lst_or (l ++ [c]) p = Some c.
Proof. unfold lst_or. by rewrite last_snoc. Qed.

Lemma lst_or_elem l p c : lst_or l p = Some c → c ∈ l ∨ p = Some c.
Proof.
  unfold lst_or. destruct (last l) as [x|] eqn:Hl; [|by right].
  intros [= ->]. left. by eapply last_Some_elem_of.
Qed.

Lemma lst_or_None_elem l c : lst_or l None = Some c → c ∈ l.
Proof. intros H. by destruct (lst_or_elem _ _ _ H). Qed.

Lemma lst_or_None l : lst_or l None = last l.
Proof. unfold lst_or. by destruct (last l). Qed.

Lemma hd_or_None_elem l c : hd_or l None = Some c → c ∈ l.
Proof. destruct l; [done|]. intros [= ->]. by left. Qed.

Lemma seg_app s p l1 l2 n :
  seg s p (l1 ++ l2) n ↔ seg s p l1 (hd_or l2 n) ∧ seg s (lst_or l1 p) l2 n.
Proof.
  revert p. induction l1 as [|c l1 IH]; intros p; simpl.
  - rewrite lst_or_nil. tauto.
  - rewrite lst_or_cons, hd_or_app, IH. tauto.
Qed.

Lemma seg_ext s s' p l n :
  (∀ c, c ∈ l → prev_of s' c = prev_of s c ∧ next_of s' c = next_of s c) →
  seg s p l n → seg s' p l n.
Proof.
  revert p. induction l as [|c l IH]; intros p Hsame; simpl; [done|].
  intros (Hp & Hn & Hseg).
  destruct (Hsame c) as [-> ->]; [by left|].
  split_and!; [done..|]. apply IH; [|done].
  intros c' Hc'. apply Hsame. by right.
Qed.

(** Changing the [next] of the last object of a segment. *)
Lemma seg_retarget s s' p l n n' :
  NoDup l → seg s p l n →
  (∀ c, c ∈ l → prev_of s' c = prev_of s c) →
  (∀ c, c ∈ l → last l ≠ Some c → next_of s' c = next_of s c) →
  (∀ c, last l = Some c → next_of s' c = n') →
  seg s' p l n'.
Proof.
  revert p. induction l as [|c l IH]; intros p Hnd Hseg Hprev Hnext Hlast;
    simpl; [done|].
  destruct Hseg as (Hp & Hn & Hseg). apply NoDup_cons in Hnd as [Hc Hnd].
  split_and!.
  - rewrite Hprev; [done|by left].
  - destruct l as [|c' l]; simpl.
    + by apply Hlast.
    + rewrite Hnext; [done|by left|].
      rewrite last_cons_cons. intros Hl. apply Hc.
      by eapply last_Some_elem_of.
  - apply IH; [done..| | |].
    + intros c' Hc'. apply Hprev. by right.
    + intros c' Hc' Hl. apply Hnext; [by right|].
      destruct l; [by apply elem_of_nil in Hc'|]. by rewrite last_cons_cons.
    + intros c' Hl. apply Hlast. destruct l; [done|]. by rewrite last_cons_cons.
Qed.

(** Changing the [prev] of the first object of a segment. *)
Lemma seg_rebase s s' p p' l n :
  NoDup l → seg s p l n →
  (∀ c, c ∈ l → next_of s' c = next_of s c) →
  (∀ c, c ∈ l → hd_or l None ≠ Some c → prev_of s' c = prev_of s c) →
  (∀ c, hd_or l None = Some c → prev_of s' c = p') →
  seg s' p' l n.
Proof.
  destruct l as [|c l]; simpl; [done|].
  intros [Hc Hnd]%NoDup_cons (Hp & Hn & Hseg) Hnext Hprev Hfirst.
  split_and!.
  - by apply Hfirst.
  - rewrite Hnext; [done|by left].
  - eapply seg_ext; [|done]. intros c' Hc'. split.
    + apply Hprev; [by right|]. intros [= ->]. done.
    + apply Hnext. by right.
Qed.

(** Iterating a chain yields its objects in order. *)
Lemma iter_from_seg s p l fuel :
  seg s p l None → length l ≤ fuel →
  iter_from (heap s) fuel (hd_or l None) = Some l.
Proof.
  revert p fuel. induction l as [|c l IH]; intros p fuel; simpl.
  - by destruct fuel.
  - intros (_ & Hn & Hseg) Hlen. destruct fuel as [|fuel]; [lia|].
    simpl. unfold next_of in Hn. rewrite Hn. erewrite IH; [done|done|lia].
Qed.

Lemma NoDup_bounded_length l k :
  NoDup l → (∀ c, c ∈ l → c < k) → length l ≤ k.
Proof.
  intros Hnd Hb. transitivity (length (seq 0 k)); [|by rewrite length_seq].
  apply submseteq_length, NoDup_submseteq; [done|].
  intros c Hc. apply elem_of_seq. specialize (Hb c Hc). lia.
Qed.

End Chains.

(** ** The tree invariant *)

Lemma mk_name_inj k1 k2 : mk_name k1 = mk_name k2 → k1 = k2.
Proof.
  unfold mk_name. intros H. injection H as H. by apply pretty_nat_inj in H.
Qed.

Section Invariant.
Implicit Types (s : State) (kids : loc → list loc) (p c : loc).

Lemma InvK_iterate s kids p :
  InvK s kids → live s p → iterate s p = Some (kids p).
Proof.
  intros HI Hp. destruct (inv_dll _ _ HI p Hp) as (Hnd & Hh & _ & Hseg).
  unfold iterate. fold (head_of s p). rewrite Hh.
  eapply iter_from_seg; [done|].
  apply NoDup_bounded_length; [done|].
  intros c Hc. exact (inv_live _ _ HI p c Hp Hc).
Qed.

Lemma InvK_has_as_child s kids p c :
  InvK s kids → live s p → live s c →
  is_Some (cmap_of s p !! name_of s c) ↔ c ∈ kids p.
Proof.
  intros HI Hp Hc. split.
  - intros [v Hv]. apply (inv_cmap _ _ HI) in Hv as [Hv Hn]; [|done].
    assert (v = c) as ->; [|done].
    eapply (inv_name _ _ HI); [|done..]. exact (inv_live _ _ HI p v Hp Hv).
  - intros Hin. exists c. by apply (inv_cmap _ _ HI).
Qed.

Lemma InvK_ext s kids kids' :
  (∀ p, kids p = kids' p) → InvK s kids → InvK s kids'.
Proof.
  intros He [H1 H2 H3 H4 H5 H6].
  split; try done; intros *; rewrite <-?He; eauto.
Qed.

(** A step that rebuilds the child list of [p] and leaves the other child
    lists alone re-establishes the invariant. *)
Lemma InvK_update s s' kids p l' :
  InvK s kids → live s p → same_frame s s' →
  (∀ q, q ≠ p → head_of s' q = head_of s q ∧ tail_of s' q = tail_of s q ∧
                cmap_of s' q = cmap_of s q) →
  (∀ q c, live s q → q ≠ p → c ∈ kids q →
          prev_of s' c = prev_of s c ∧ next_of s' c = next_of s c) →
  dll s' l' (head_of s' p) (tail_of s' p) →
  (∀ c, c ∈ l' → live s c ∧ ∀ q, live s q → q ≠ p → c ∉ kids q) →
  (∀ k v, cmap_of s' p !! k = Some v ↔ v ∈ l' ∧ name_of s v = k) →
  InvK s' (<[p := l']> kids).
Proof.
  intros HI Hp (Hna & Hco & Hfr) Hother Hlinks Hdll Hl' Hcm.
  assert (Hlive : ∀ c, live s' c ↔ live s c) by (intros c; unfold live; lia).
  assert (Hname : ∀ c, name_of s' c = name_of s c) by (intros c; apply Hfr).
  split.
  - intros q Hq%Hlive. destruct (decide (q = p)) as [->|Hne].
    + by rewrite fn_lookup_insert.
    + rewrite fn_lookup_insert_ne by done.
      destruct (Hother q Hne) as (-> & -> & _).
      destruct (inv_dll _ _ HI q Hq) as (Hnd & Hh & Ht & Hseg).
      split_and!; [done..|]. eapply seg_ext; [|done].
      intros c Hc. by eapply Hlinks.
  - intros q c Hq%Hlive Hc. apply Hlive. destruct (decide (q = p)) as [->|Hne].
    + rewrite fn_lookup_insert in Hc. by apply Hl'.
    + rewrite fn_lookup_insert_ne in Hc by done. by eapply (inv_live _ _ HI).
  - intros q1 q2 c Hq1%Hlive Hq2%Hlive.
    destruct (decide (q1 = p)) as [->|Hne1], (decide (q2 = p)) as [->|Hne2];
      rewrite ?fn_lookup_insert, ?fn_lookup_insert_ne by done; [done|..].
    + intros Hc1 Hc2. by destruct (proj2 (Hl' c Hc1) q2 Hq2 Hne2).
    + intros Hc1 Hc2. by destruct (proj2 (Hl' c Hc2) q1 Hq1 Hne1).
    + by apply (inv_disj _ _ HI).
  - intros q k v Hq%Hlive. rewrite Hname.
    destruct (decide (q = p)) as [->|Hne].
    + rewrite fn_lookup_insert. apply Hcm.
    + rewrite fn_lookup_insert_ne by done.
      destruct (Hother q Hne) as (_ & _ & ->). by apply (inv_cmap _ _ HI).
  - intros a b Ha%Hlive Hb%Hlive. rewrite !Hname. by apply (inv_name _ _ HI).
  - intros a Ha%Hlive. rewrite Hname, Hco. by apply (inv_count _ _ HI).
Qed.

End Invariant.

(** ** The index after [_cmap[new.name] = new] and [_cmap.pop(node.name)] *)

Section Index.
Variables (s : State) (kids : loc → list loc) (p : loc).
Hypothesis HI : InvK s kids.
Hypothesis Hp : live s p.

Lemma cmap_insert_char new (l' : list loc) :
  live s new →
  (∀ v, v ∈ l' ↔ v = new ∨ v ∈ kids p) →
  ∀ k v, <[name_of s new := new]> (cmap_of s p) !! k = Some v ↔
         v ∈ l' ∧ name_of s v = k.
Proof using HI Hp.
  intros Hnew Hl' k v. rewrite Hl'.
  destruct (decide (name_of s new = k)) as [<-|Hk].
  - rewrite lookup_insert_eq. split.
    + intros [= <-]. auto.
    + intros [[->|Hv] Hn]; [done|]. f_equal. symmetry.
      apply (inv_name _ _ HI); [|done..]. exact (inv_live _ _ HI p v Hp Hv).
  - rewrite lookup_insert_ne by done. rewrite (inv_cmap _ _ HI) by done.
    split; [tauto|]. intros [[->|Hv] Hn]; [done|tauto].
Qed.

Lemma cmap_delete_char node (l' : list loc) :
  node ∈ kids p →
  (∀ v, v ∈ l' ↔ v ∈ kids p ∧ v ≠ node) →
  ∀ k v, base.delete (name_of s node) (cmap_of s p) !! k = Some v ↔
         v ∈ l' ∧ name_of s v = k.
Proof using HI Hp.
  intros Hnode Hl' k v. rewrite Hl'.
  assert (Hlive : live s node) by exact (inv_live _ _ HI p node Hp Hnode).
  destruct (decide (name_of s node = k)) as [<-|Hk].
  - rewrite lookup_delete_eq. split; [done|]. intros [[Hv Hne] Hn].
    destruct Hne. apply (inv_name _ _ HI); [|done..].
    exact (inv_live _ _ HI p v Hp Hv).
  - rewrite lookup_delete_ne by done. rewrite (inv_cmap _ _ HI) by done.
    split; [|tauto]. intros [Hv Hn]. split_and!; [done| |done].
    intros ->. done.
Qed.

End Index.

(** ** Each mutation step keeps the invariant *)

Section Steps.
Implicit Types (s : State) (kids : loc → list loc) (p c : loc).

Lemma dll_tail_elem s l hd tl c : dll s l hd tl → tl = Some c → c ∈ l.
Proof. intros (_ & _ & -> & _) Hl. by eapply last_Some_elem_of. Qed.

(** [children.append(new)] followed by [_cmap[new.name] = new] *)
Lemma append_inv s kids p new :
  InvK s kids → live s p → live s new → detached s kids new →
  ∃ s1 s2, append p new s = Ok tt s1 ∧
           cmap_setitem p (name_of s1 new) new s1 = Ok tt s2 ∧
           same_frame s s2 ∧
           InvK s2 (<[p := kids p ++ [new]]> kids).
Proof.
  intros HI Hp Hnew Hdet.
  destruct (append_spec s p new) as (s1 & E1 & F1 & P1 & N1 & H1 & T1 & C1).
  destruct (cmap_setitem_spec s1 p (name_of s1 new) new)
    as (s2 & E2 & F2 & P2 & N2 & H2 & T2 & C2).
  exists s1, s2. split_and!; [done|done|by eapply same_frame_trans|].
  pose proof (inv_dll _ _ HI p Hp) as Hd.
  destruct Hd as (Hnd & Hhd & Htl & Hseg).
  assert (Hnotin : new ∉ kids p) by by apply Hdet.
  assert (Hlast : ∀ c, tail_of s p = Some c → c ∈ kids p).
  { intros c Hc. rewrite Htl in Hc. by eapply last_Some_elem_of. }
  eapply (InvK_update s s2 kids p); [done|done|by eapply same_frame_trans|..].
  - intros q Hq. rewrite H2, H1, T2, T1, C2, C1.
    by rewrite !decide_False by done.
  - intros q c Hq Hne Hc. rewrite P2, P1, N2, N1.
    assert (c ≠ new) by (intros ->; by apply (Hdet q)).
    rewrite !(decide_False (P := c = new)) by done.
    rewrite decide_False; [done|]. intros Ht%Hlast.
    apply Hne. by apply (inv_disj _ _ HI q p c).
  - split_and!.
    + apply NoDup_app. split_and!; [done| |apply NoDup_singleton].
      intros c Hc ->%list_elem_of_singleton. done.
    + rewrite H2, H1, decide_True by done. rewrite Htl, Hhd.
      destruct (kids p) as [|c l] eqn:Hk; [done|]. simpl.
      by destruct (last (c :: l)) eqn:Hl; [|apply last_None in Hl].
    + rewrite T2, T1, decide_True by done. by rewrite last_snoc.
    + apply seg_app. split.
      * eapply seg_retarget; [done|done|..].
        -- intros c Hc. rewrite P2, P1, decide_False; [done|].
           by intros ->.
        -- intros c Hc Hl. rewrite N2, N1, decide_False by (by intros ->).
           rewrite decide_False; [done|]. by rewrite Htl.
        -- intros c Hl. simpl. rewrite N2, N1, decide_False.
           ++ by rewrite decide_True by by rewrite Htl.
           ++ intros ->. apply Hnotin. by eapply last_Some_elem_of.
      * simpl. rewrite P2, P1, N2, N1, !decide_True by done.
        by rewrite lst_or_None, Htl.
  - intros c [Hc| ->%list_elem_of_singleton]%elem_of_app.
    + split; [exact (inv_live _ _ HI p c Hp Hc)|].
      intros q Hq Hne Hcq. apply Hne. by apply (inv_disj _ _ HI q p c).
    + split; [done|]. intros q Hq _. by apply Hdet.
  - rewrite C2, decide_True, C1 by done.
    destruct F1 as (_ & _ & F1). rewrite (proj1 (F1 new)).
    apply (cmap_insert_char s kids p HI Hp); [done|].
    intros v. rewrite elem_of_app, list_elem_of_singleton. tauto.
Qed.

(** [children.insert_before(ref, new)] followed by [_cmap[new.name] = new] *)
Lemma list_insert_before_inv s kids p ref new l1 l2 :
  InvK s kids → live s p → live s new → detached s kids new →
  kids p = l1 ++ ref :: l2 →
  ∃ s1 s2, list_insert_before p ref new s = Ok tt s1 ∧
           cmap_setitem p (name_of s1 new) new s1 = Ok tt s2 ∧
           same_frame s s2 ∧
           InvK s2 (<[p := l1 ++ new :: ref :: l2]> kids).
Proof.
  intros HI Hp Hnew Hdet Hk.
  assert (Hnotin : new ∉ kids p) by by apply Hdet.
  assert (Hrefin : ref ∈ kids p).
  { rewrite Hk. apply elem_of_app. right. by left. }
  assert (Hne : new ≠ ref) by (by intros ->).
  destruct (list_insert_before_spec s p ref new Hne)
    as (s1 & E1 & F1 & P1 & N1 & H1 & T1 & C1).
  destruct (cmap_setitem_spec s1 p (name_of s1 new) new)
    as (s2 & E2 & F2 & P2 & N2 & H2 & T2 & C2).
  exists s1, s2. split_and!; [done|done|by eapply same_frame_trans|].
  destruct (inv_dll _ _ HI p Hp) as (Hnd & Hhd & Htl & Hseg).
  rewrite Hk in Hnd, Hhd, Htl, Hseg, Hnotin.
  apply NoDup_app in Hnd as (Hnd1 & Hnd12 & (Hr2 & Hnd2)%NoDup_cons).
  apply seg_app in Hseg as (Hseg1 & Hpr & Hnx & Hseg2). simpl in Hseg1.
  assert (Hpl1 : ∀ c, prev_of s ref = Some c → c ∈ l1).
  { intros c Hc. rewrite Hpr in Hc. by apply lst_or_None_elem. }
  assert (Hr1 : ref ∉ l1).
  { intros Hr. apply (Hnd12 ref Hr). by left. }
  assert (Hn1 : new ∉ l1).
  { intros Hn. apply Hnotin, elem_of_app. by left. }
  assert (Hn2 : new ∉ l2).
  { intros Hn. apply Hnotin, elem_of_app. right. by right. }
  eapply (InvK_update s s2 kids p); [done|done|by eapply same_frame_trans|..].
  - intros q Hq. rewrite H2, H1, T2, T1, C2, C1.
    goal_decide; naive_solver.
  - intros q c Hq Hqp Hc. rewrite P2, P1, N2, N1.
    assert (c ≠ new) by (intros ->; by apply (Hdet q)).
    assert (c ∉ kids p).
    { intros Hcp. apply Hqp. by apply (inv_disj _ _ HI q p c). }
    assert (c ≠ ref) by (by intros ->).
    assert (prev_of s ref ≠ Some c).
    { intros Hc'%Hpl1. rewrite Hk in *. set_solver. }
    by goal_decide.
  - split_and!.
    + apply NoDup_app. split_and!; [done| |].
      * intros c Hc [->|Hc']%elem_of_cons; [done|]. by apply (Hnd12 c).
      * apply NoDup_cons. split; [|by apply NoDup_cons].
        intros [->|Hc']%elem_of_cons; done.
    + rewrite H2, H1, Hhd. destruct l1 as [|c l1]; simpl.
      * by rewrite decide_True.
      * rewrite decide_False; [done|]. intros [_ [= ->]]. apply Hr1. by left.
    + rewrite T2, T1, Htl. by rewrite !last_app_cons, last_cons_cons.
    + apply seg_app. split; simpl.
      * eapply seg_retarget; [done|done|..].
        -- intros c Hc. rewrite P2, P1.
           goal_decide; done.
        -- intros c Hc Hl. rewrite N2, N1, Hpr, lst_or_None.
           goal_decide; done.
        -- intros c Hl. rewrite N2, N1, Hpr, lst_or_None.
           by rewrite decide_True.
      * rewrite !P2, !P1, !N2, !N1. split_and!.
        -- goal_decide; done.
        -- goal_decide; try done. by destruct Hn1; apply Hpl1.
        -- by rewrite decide_True.
        -- goal_decide; try done. by destruct Hr1; apply Hpl1.
        -- eapply seg_ext; [|done]. intros c Hc. rewrite P2, P1, N2, N1.
           assert (c ≠ ref) by (by intros ->).
           assert (c ≠ new) by (by intros ->).
           assert (prev_of s ref ≠ Some c).
           { intros Hc'%Hpl1. apply (Hnd12 c Hc'). by right. }
           by goal_decide.
  - intros c Hc.
    assert (Hc' : c = new ∨ c ∈ kids p).
    { rewrite Hk. set_solver. }
    destruct Hc' as [->|Hc'].
    + split; [done|]. intros q Hq _. by apply Hdet.
    + split; [exact (inv_live _ _ HI p c Hp Hc')|].
      intros q Hq Hqp Hcq. apply Hqp. by apply (inv_disj _ _ HI q p c).
  - rewrite C2, decide_True, C1 by done.
    destruct F1 as (_ & _ & F1). rewrite (proj1 (F1 new)).
    apply (cmap_insert_char s kids p HI Hp); [done|].
    intros v. rewrite Hk. set_solver.
Qed.

(** [children.delete(node)] followed by [_cmap.pop(node.name)] *)
Lemma delete_inv s kids p node l1 l2 :
  InvK s kids → live s p → kids p = l1 ++ node :: l2 →
  ∃ s1 s2, delete p node s = Ok tt s1 ∧
           cmap_pop p (name_of s1 node) s1 = Ok node s2 ∧
           same_frame s s2 ∧
           InvK s2 (<[p := l1 ++ l2]> kids) ∧
           prev_of s2 node = prev_of s node ∧
           next_of s2 node = next_of s node.
Proof.
  intros HI Hp Hk.
  assert (Hin : node ∈ kids p).
  { rewrite Hk. apply elem_of_app. right. by left. }
  destruct (inv_dll _ _ HI p Hp) as (Hnd & Hhd & Htl & Hseg).
  rewrite Hk in Hnd, Hhd, Htl, Hseg.
  apply NoDup_app in Hnd as (Hnd1 & Hnd12 & (Hn2 & Hnd2)%NoDup_cons).
  apply seg_app in Hseg as (Hseg1 & Hpr & Hnx & Hseg2). simpl in Hseg1.
  rewrite lst_or_None in Hpr. rewrite last_app_cons in Htl.
  rewrite hd_or_app in Hhd. simpl in Hhd.
  assert (Hn1 : node ∉ l1).
  { intros Hr. apply (Hnd12 node Hr). by left. }
  assert (Hpl1 : ∀ c, prev_of s node = Some c → c ∈ l1).
  { intros c Hc. rewrite Hpr in Hc. by eapply last_Some_elem_of. }
  assert (Hnl2 : ∀ c, next_of s node = Some c → c ∈ l2).
  { intros c Hc. rewrite Hnx in Hc. by apply hd_or_None_elem. }
  assert (HH : head_of s p = Some node ↔ l1 = []).
  { rewrite Hhd. destruct l1 as [|c l1]; [done|]. simpl. split; [|done].
    intros [= ->]. destruct Hn1. by left. }
  assert (TT : tail_of s p = Some node ↔ l2 = []).
  { rewrite Htl. destruct l2 as [|c l2]; [done|]. rewrite last_cons_cons.
    split; [|done]. intros Hl%last_Some_elem_of. done. }
  destruct (delete_spec s p node) as (s1 & E1 & F1 & P1 & N1 & H1 & T1 & C1).
  { intros Hne. rewrite Hpr. apply last_is_Some. by rewrite <-HH. }
  { intros Hne. rewrite Hnx. destruct l2; [by destruct Hne; apply TT|].
    by eexists. }
  assert (Hnm : name_of s1 node = name_of s node).
  { destruct F1 as (_ & _ & F1). apply F1. }
  destruct (cmap_pop_spec s1 p (name_of s1 node) node)
    as (s2 & E2 & F2 & P2 & N2 & H2 & T2 & C2).
  { rewrite C1, Hnm. by apply (inv_cmap _ _ HI). }
  exists s1, s2. split_and!; [done|done|by eapply same_frame_trans| | |].
  - eapply (InvK_update s s2 kids p); [done|done|by eapply same_frame_trans|..].
    + intros q Hq. rewrite H2, H1, T2, T1, C2, C1.
      goal_decide; naive_solver.
    + intros q c Hq Hqp Hc. rewrite P2, P1, N2, N1.
      assert (c ∉ kids p).
      { intros Hcp. apply Hqp. by apply (inv_disj _ _ HI q p c). }
      assert (prev_of s node ≠ Some c).
      { intros Hc'%Hpl1. rewrite Hk in *. set_solver. }
      assert (next_of s node ≠ Some c).
      { intros Hc'%Hnl2. rewrite Hk in *. set_solver. }
      goal_decide; naive_solver.
    + split_and!.
      * apply NoDup_app. split_and!; [done| |done].
        intros c Hc Hc'. apply (Hnd12 c Hc). by right.
      * rewrite H2, H1, hd_or_app. destruct l1 as [|c l1]; simpl.
        -- rewrite decide_True; [done|]. split; [done|]. by apply HH.
        -- rewrite decide_False; [done|]. intros [_ Hc%HH]. done.
      * rewrite T2, T1. destruct l2 as [|c l2].
        -- rewrite decide_True; [|split; [done|by apply TT]].
           by rewrite app_nil_r.
        -- rewrite decide_False; [|by intros [_ Hc%TT]].
           by rewrite Htl, last_cons_cons, last_app_cons.
      * apply seg_app. split.
        -- eapply seg_retarget; [done|done|..].
           ++ intros c Hc. rewrite P2, P1, decide_False; [done|].
              intros [_ Hc'%Hnl2]. apply (Hnd12 c Hc). by right.
           ++ intros c Hc Hl. rewrite N2, N1, decide_False; [done|].
              intros [_ Hc']. by rewrite Hpr in Hc'.
           ++ intros c Hl. rewrite N2, N1, decide_True; [done|].
              split; [|by rewrite Hpr]. intros Hc%HH. by subst l1.
        -- rewrite lst_or_None. eapply seg_rebase; [done|done|..].
           ++ intros c Hc. rewrite N2, N1, decide_False; [done|].
              intros [_ Hc'%Hpl1]. apply (Hnd12 c Hc'). by right.
           ++ intros c Hc Hf. rewrite P2, P1, decide_False; [done|].
              intros [_ Hc']. by rewrite Hnx in Hc'.
           ++ intros c Hf. rewrite P2, P1, decide_True; [done|].
              split; [|by rewrite Hnx]. intros Hc%TT. by subst l2.
    + intros c Hc.
      assert (Hc' : c ∈ kids p) by (rewrite Hk; set_solver).
      split; [exact (inv_live _ _ HI p c Hp Hc')|].
      intros q Hq Hqp Hcq. apply Hqp. by apply (inv_disj _ _ HI q p c).
    + rewrite C2, decide_True, C1, Hnm by done.
      apply (cmap_delete_char s kids p HI Hp); [done|].
      intros v. rewrite Hk. set_solver.
  - rewrite P2, P1, decide_False; [done|]. intros [_ Hc%Hnl2]. done.
  - rewrite N2, N1, decide_False; [done|]. intros [_ Hc%Hpl1]. done.
Qed.

End Steps.

(** ** The methods of [Node] on a well-formed tree *)

Section Methods.
Implicit Types (s : State) (kids : loc → list loc) (p c : loc).

(** The guard of [insert_before] with a reference and of the decorator. *)
Lemma insert_before_raise s p new ref :
  cmap_of s p !! name_of s ref = None →
  insert_before p new (Some ref) s = Raise NotAChild s.
Proof.
  unfold insert_before, has_as_child. unfold_attrs. intros Hc. run_monad.
  rewrite Hc. by rewrite bool_decide_false by (by intros [? ?]).
Qed.

Lemma child_existence_required_raise {A} (m : loc → loc → M A) s p child :
  cmap_of s p !! name_of s child = None →
  child_existence_required m p child s = Raise NotAChild s.
Proof.
  unfold child_existence_required, has_as_child. unfold_attrs.
  intros Hc. run_monad.
  rewrite Hc. by rewrite bool_decide_false by (by intros [? ?]).
Qed.

Lemma child_existence_required_pass {A} (m : loc → loc → M A) s p child :
  is_Some (cmap_of s p !! name_of s child) →
  child_existence_required m p child s = m p child s.
Proof.
  unfold child_existence_required, has_as_child. unfold_attrs.
  intros Hc. run_monad. by rewrite bool_decide_true by done.
Qed.

Lemma insert_before_None_ok s kids p new :
  InvK s kids → live s p → live s new → detached s kids new →
  ∃ s', insert_before p new None s = Ok new s' ∧ same_frame s s' ∧
        InvK s' (<[p := kids p ++ [new]]> kids).
Proof.
  intros HI Hp Hnew Hdet.
  destruct (append_inv s kids p new) as (s1 & s2 & E1 & E2 & F & HI');
    [done..|].
  exists s2. split_and!; [|done..].
  unfold insert_before. run_calls. rewrite E1. run_calls.
  unfold name_of in E2. by rewrite E2.
Qed.

Lemma insert_before_Some_ok s kids p new ref l1 l2 :
  InvK s kids → live s p → live s new → detached s kids new →
  kids p = l1 ++ ref :: l2 →
  ∃ s', insert_before p new (Some ref) s = Ok new s' ∧ same_frame s s' ∧
        InvK s' (<[p := l1 ++ new :: ref :: l2]> kids).
Proof.
  intros HI Hp Hnew Hdet Hk.
  destruct (list_insert_before_inv s kids p ref new l1 l2)
    as (s1 & s2 & E1 & E2 & F & HI'); [done..|].
  exists s2. split_and!; [|done..].
  assert (Hc : cmap_of s p !! name_of s ref = Some ref).
  { apply (inv_cmap _ _ HI); [done|]. split; [|done].
    rewrite Hk. apply elem_of_app. right. by left. }
  unfold insert_before, has_as_child. run_calls.
  unfold cmap_of, name_of in Hc. rewrite Hc.
  rewrite bool_decide_true by done. rewrite E1. run_calls.
  unfold name_of in E2. by rewrite E2.
Qed.

Lemma remove_child_ok s kids p child l1 l2 :
  InvK s kids → live s p → kids p = l1 ++ child :: l2 →
  ∃ s', remove_child p child s = Ok child s' ∧ same_frame s s' ∧
        InvK s' (<[p := l1 ++ l2]> kids) ∧
        prev_of s' child = prev_of s child ∧
        next_of s' child = next_of s child.
Proof.
  intros HI Hp Hk.
  destruct (delete_inv s kids p child l1 l2)
    as (s1 & s2 & E1 & E2 & F & HI' & Hpv & Hnx); [done..|].
  exists s2. split_and!; [|done..].
  unfold remove_child. rewrite child_existence_required_pass.
  - run_calls. rewrite E1. run_calls. unfold name_of in E2. by rewrite E2.
  - exists child. apply (inv_cmap _ _ HI); [done|]. split; [|done].
    rewrite Hk. apply elem_of_app. right. by left.
Qed.

Lemma replace_child_ok s kids p old new l1 l2 :
  InvK s kids → live s p → live s new → detached s kids new →
  kids p = l1 ++ old :: l2 →
  ∃ s', replace_child p old new s = Ok old s' ∧ same_frame s s' ∧
        InvK s' (<[p := l1 ++ new :: l2]> kids) ∧
        prev_of s' old = Some new ∧
        next_of s' old = next_of s old.
Proof.
  intros HI Hp Hnew Hdet Hk.
  assert (Hne : new ≠ old).
  { intros ->. apply (Hdet p Hp). rewrite Hk. apply elem_of_app. right. by left. }
  destruct (list_insert_before_spec s p old new Hne)
    as (s1' & E1' & _ & P1 & N1 & _).
  destruct (cmap_setitem_spec s1' p (name_of s1' new) new)
    as (s2' & E2' & _ & P2 & N2 & _).
  destruct (list_insert_before_inv s kids p old new l1 l2)
    as (s1 & s2 & E1 & E2 & F & HI'); [done..|].
  assert (s1' = s1) as -> by congruence.
  assert (s2' = s2) as -> by congruence.
  assert (Hp2 : live s2 p) by (unfold live; destruct F as [-> _]; done).
  destruct (delete_inv s2 (<[p := l1 ++ new :: old :: l2]> kids) p old
              (l1 ++ [new]) l2)
    as (s3 & s4 & E3 & E4 & F' & HI'' & Hpv & Hnx); [done..| |].
  { by rewrite fn_lookup_insert, <-app_assoc. }
  exists s4. split_and!.
  - unfold replace_child. rewrite child_existence_required_pass.
    + run_calls. rewrite E1. run_calls. unfold name_of in E2. rewrite E2.
      run_calls. rewrite E3. run_calls. unfold name_of in E4. by rewrite E4.
    + exists old. apply (inv_cmap _ _ HI); [done|]. split; [|done].
      rewrite Hk. apply elem_of_app. right. by left.
  - by eapply same_frame_trans.
  - eapply InvK_ext; [|done]. intros q. unfold insert, fn_insert.
    destruct (decide (p = q)); [|done]. by rewrite <-app_assoc.
  - rewrite Hpv, P2, P1. by rewrite decide_True.
  - rewrite Hnx, N2, N1.
    rewrite decide_False, decide_False; [done|done|].
    destruct (inv_dll _ _ HI p Hp) as (Hnd & _ & _ & Hseg).
    rewrite Hk in Hnd, Hseg.
    apply seg_app in Hseg as (_ & Hpr & _).
    rewrite Hpr. intros Hl%lst_or_None_elem.
    apply NoDup_app in Hnd as (_ & Hnd & _). apply (Hnd old Hl). by left.
Qed.

End Methods.

(** ** Disciplined programs *)

Section Reachable.
Implicit Types (s : State) (kids : loc → list loc) (p c : loc).

Lemma is_live_spec s c : is_live s c = true ↔ live s c.
Proof. unfold is_live, live. by rewrite bool_decide_eq_true. Qed.

Lemma unattached_detached s kids c :
  InvK s kids → unattached s c = true → detached s kids c.
Proof.
  intros HI Hu q Hq. unfold unattached in Hu.
  rewrite forallb_forall in Hu. specialize (Hu q).
  unfold in_children in Hu. rewrite (InvK_iterate s kids q HI Hq) in Hu.
  intros Hc. rewrite bool_decide_true in Hu by done.
  assert (negb true = true); [|done].
  apply Hu. apply list_elem_of_In, elem_of_seq. unfold live in Hq. lia.
Qed.

Lemma detached_unattached s kids c :
  InvK s kids → detached s kids c → unattached s c = true.
Proof.
  intros HI Hd. unfold unattached. apply forallb_forall.
  intros q Hq%list_elem_of_In%elem_of_seq.
  assert (Hl : live s q) by (unfold live; lia).
  unfold in_children. rewrite (InvK_iterate s kids q HI Hl).
  rewrite bool_decide_false; [done|]. by apply Hd.
Qed.

Lemma Inv_initial : InvK initial (λ _, []).
Proof.
  constructor; unfold live; simpl; intros; lia.
Qed.

Lemma make_name_inv s kids self :
  InvK s kids → InvK (state_of (make_name self s)) kids.
Proof.
  intros [H1 H2 H3 H4 H5 H6]. split; try done.
  { intros p Hp. destruct (H1 p Hp) as (? & ? & ? & Hseg).
    split_and!; [done..|]. eapply seg_ext; [|exact Hseg]. done. }
  intros a Ha. destruct (H6 a Ha) as (k & Hk & Hn).
  exists k. split; [simpl; lia|done].
Qed.

Lemma new_node_ok s t par :
  ∃ s', new_node t par s = Ok (nalloc s) s' ∧
        nalloc s' = S (nalloc s) ∧ _count s' = S (_count s) ∧
        heap s' (nalloc s) =
          mkNode t par None None (mk_name (_count s))
                 (mk_childrenlist None None) ∅ ∧
        ∀ c, c ≠ nalloc s → heap s' c = heap s c.
Proof.
  unfold new_node, alloc, make_name. run_monad.
  eexists. split; [done|]. simpl. split_and!; [done|done|..].
  - by rewrite fn_lookup_insert.
  - intros c Hc. by rewrite fn_lookup_insert_ne.
Qed.

Lemma new_node_inv s kids t par :
  InvK s kids →
  InvK (state_of (new_node t par s)) (<[nalloc s := []]> kids).
Proof.
  intros HI. destruct (new_node_ok s t par) as (s' & -> & Hna & Hco & Hnew & Hold).
  simpl. unfold live, head_of, tail_of, prev_of, next_of, name_of, cmap_of in *.
  assert (Hkid : ∀ p c, p < nalloc s → c ∈ kids p → heap s' c = heap s c).
  { intros p c Hp Hc. apply Hold.
    pose proof (inv_live _ _ HI p c Hp Hc) as Hl. unfold live in Hl. lia. }
  split; unfold live, head_of, tail_of, prev_of, next_of, name_of, cmap_of;
    rewrite ?Hna, ?Hco.
  - intros p Hp. destruct (decide (p = nalloc s)) as [->|Hne].
    + rewrite fn_lookup_insert, Hnew. simpl.
      split_and!; [apply NoDup_nil_2|done..].
    + rewrite fn_lookup_insert_ne by done. rewrite Hold by done.
      assert (Hp' : p < nalloc s) by lia.
      destruct (inv_dll _ _ HI p Hp') as (? & ? & ? & Hseg).
      split_and!; [done..|]. eapply seg_ext; [|done].
      intros c Hc. unfold prev_of, next_of. by rewrite (Hkid p c).
  - intros p c Hp. destruct (decide (p = nalloc s)) as [->|Hne].
    + rewrite fn_lookup_insert. by intros ?%elem_of_nil.
    + rewrite fn_lookup_insert_ne by done. intros Hc.
      assert (Hp' : p < nalloc s) by lia.
      pose proof (inv_live _ _ HI p c Hp' Hc) as Hl. unfold live in Hl. lia.
  - intros p q c Hp Hq.
    destruct (decide (p = nalloc s)) as [->|Hnp];
      [rewrite fn_lookup_insert; by intros ?%elem_of_nil|].
    destruct (decide (q = nalloc s)) as [->|Hnq];
      [rewrite (fn_lookup_insert kids); by intros ? ?%elem_of_nil|].
    rewrite !fn_lookup_insert_ne by done.
    apply (inv_disj _ _ HI); unfold live; lia.
  - intros p k v Hp. destruct (decide (p = nalloc s)) as [->|Hne].
    + rewrite fn_lookup_insert, Hnew. simpl. rewrite lookup_empty.
      split; [done|]. by intros [?%elem_of_nil _].
    + rewrite fn_lookup_insert_ne by done. rewrite Hold by done.
      assert (Hp' : p < nalloc s) by lia.
      pose proof (inv_cmap _ _ HI p k v Hp') as Hc.
      unfold cmap_of, name_of in Hc. rewrite Hc.
      split; intros [Hv Hn]; (split; [done|]);
        [by rewrite (Hkid p v)|by rewrite <-(Hkid p v)].
  - assert (Hfresh : ∀ a, a < nalloc s → name (heap s a) ≠ mk_name (_count s)).
    { intros a Ha Hn. destruct (inv_count _ _ HI a Ha) as (k & Hk & Hn').
      unfold name_of in Hn'. rewrite Hn' in Hn. apply mk_name_inj in Hn. lia. }
    intros a b Ha Hb.
    destruct (decide (a = nalloc s)) as [->|Hna'],
             (decide (b = nalloc s)) as [->|Hnb']; [done|..].
    + rewrite Hnew, (Hold b) by done. simpl. intros Hn.
      destruct (Hfresh b); [lia|done].
    + rewrite Hnew, (Hold a) by done. simpl. intros Hn.
      destruct (Hfresh a); [lia|done].
    + rewrite !Hold by done. apply (inv_name _ _ HI); unfold live; lia.
  - intros a Ha. destruct (decide (a = nalloc s)) as [->|Hna'].
    + rewrite Hnew. simpl. exists (_count s). split; [lia|done].
    + rewrite Hold by done.
      destruct (inv_count _ _ HI a) as (k & Hk & Hn); [unfold live; lia|].
      exists k. split; [lia|done].
Qed.

Lemma registered_split s kids p c :
  InvK s kids → live s p → live s c →
  is_Some (cmap_of s p !! name_of s c) → ∃ l1 l2, kids p = l1 ++ c :: l2.
Proof.
  intros HI Hp Hc Hr. apply list_elem_of_split.
  by apply (InvK_has_as_child s kids p c HI).
Qed.

Lemma exec_inv s (k : call) :
  Inv s → live_args s k = true → attaches_unattached s k = true →
  Inv (exec k s).
Proof.
  intros [kids HI] Hlive Hatt.
  destruct k as [t par|self|self new ref|self old new|self child]; simpl in *.
  - eexists. exact (new_node_inv s kids t par HI).
  - eexists. exact (make_name_inv s kids self HI).
  - apply andb_prop in Hlive as [[Hs Hn]%andb_prop Hr].
    apply is_live_spec in Hs, Hn.
    destruct ref as [r|].
    + simpl in Hr. apply is_live_spec in Hr. unfold registered in Hatt.
      destruct (cmap_of s self !! name_of s r) as [v|] eqn:Hv.
      * rewrite bool_decide_true in Hatt by done.
        pose proof (unattached_detached s kids new HI Hatt) as Hdet.
        destruct (registered_split s kids self r) as (l1 & l2 & Hk);
          [done..|by rewrite Hv|].
        destruct (insert_before_Some_ok s kids self new r l1 l2)
          as (s' & -> & _ & HI'); [done..|].
        by eexists.
      * rewrite insert_before_raise by done. by exists kids.
    + pose proof (unattached_detached s kids new HI Hatt) as Hdet.
      destruct (insert_before_None_ok s kids self new)
        as (s' & -> & _ & HI'); [done..|].
      by eexists.
  - apply andb_prop in Hlive as [[Hs Ho]%andb_prop Hn].
    apply is_live_spec in Hs, Ho, Hn. unfold registered in Hatt.
    destruct (cmap_of s self !! name_of s old) as [v|] eqn:Hv.
    + rewrite bool_decide_true in Hatt by done.
      pose proof (unattached_detached s kids new HI Hatt) as Hdet.
      destruct (registered_split s kids self old) as (l1 & l2 & Hk);
        [done..|by rewrite Hv|].
      destruct (replace_child_ok s kids self old new l1 l2)
        as (s' & -> & _ & HI' & _); [done..|].
      by eexists.
    + unfold replace_child.
      rewrite child_existence_required_raise by done. by exists kids.
  - apply andb_prop in Hlive as [Hs Hc]. apply is_live_spec in Hs, Hc.
    destruct (cmap_of s self !! name_of s child) as [v|] eqn:Hv.
    + destruct (registered_split s kids self child) as (l1 & l2 & Hk);
        [done..|by rewrite Hv|].
      destruct (remove_child_ok s kids self child l1 l2)
        as (s' & -> & _ & HI' & _); [done..|].
      by eexists.
    + unfold remove_child.
      rewrite child_existence_required_raise by done. by exists kids.
Qed.

Lemma run_inv cs s : Inv s → disciplined s cs = true → Inv (run cs s).
Proof.
  revert s. induction cs as [|k cs IH]; intros s HI Hd; simpl in *; [done|].
  apply andb_prop in Hd as [[Hl Ha]%andb_prop Hd].
  apply IH; [|done]. by apply exec_inv.
Qed.

(** Every tree built by a disciplined program satisfies the invariant. *)
Lemma disciplined_inv cs :
  disciplined initial cs = true → Inv (run cs initial).
Proof. apply run_inv. eexists. apply Inv_initial. Qed.

End Reachable.

(** ** The properties of the specification *)

Section Properties.
Implicit Types (s : State) (kids : loc → list loc) (p c : loc).

Lemma InvK_index s kids p :
  InvK s kids → live s p → index_matches_children s p.
Proof.
  intros HI Hp. exists (kids p). split; [by apply InvK_iterate|].
  apply set_eq. intros k.
  rewrite elem_of_dom, elem_of_list_to_set, list_elem_of_fmap. split.
  - intros [v Hv]. apply (inv_cmap _ _ HI) in Hv as [Hv Hn]; [|done].
    by exists v.
  - intros (v & -> & Hv). exists v. by apply (inv_cmap _ _ HI).
Qed.

Lemma dll_doubly_linked s l p :
  dll s l (head_of s p) (tail_of s p) → doubly_linked s p l.
Proof.
  intros (Hnd & Hh & Ht & Hseg). split_and!.
  - apply Forall_forall. intros c Hc Hne.
    apply list_elem_of_split in Hc as (l1 & l2 & ->).
    apply seg_app in Hseg as (Hseg1 & Hpr & _). simpl in Hseg1.
    destruct l1 as [|q l1 _] using rev_ind; [by rewrite Hh in Hne|].
    apply seg_app in Hseg1 as (_ & _ & Hq & _). simpl in Hq.
    by rewrite Hpr, lst_or_snoc.
  - apply Forall_forall. intros c Hc Hne.
    apply list_elem_of_split in Hc as (l1 & l2 & ->).
    apply seg_app in Hseg as (_ & _ & Hnx & Hseg2).
    destruct l2 as [|q l2]; [by rewrite Ht, last_snoc in Hne|].
    simpl in Hnx, Hseg2. destruct Hseg2 as (Hq & _).
    by rewrite Hnx; simpl.
  - rewrite Hh. destruct l as [|c l]; [done|]. simpl. by destruct Hseg.
  - rewrite Ht. destruct l as [|c l _] using rev_ind; [done|].
    rewrite last_snoc. simpl.
    by apply seg_app in Hseg as (_ & _ & Hn & _).
  - rewrite Hh, Ht. split.
    + intros [Hl _]. by destruct l.
    + by intros ->.
Qed.

End Properties.

(** C1 as stated fails: after [reinsertion], iterating the children of [0]
    yields only node [1], while the index still has the names of [1] and
    [2]. *)
Lemma C1_counterexample :
  ¬ (∀ cs, well_typed initial cs = true →
       ∀ p, live (run cs initial) p →
            index_matches_children (run cs initial) p).
Proof.
  intros H.
  destruct (H reinsertion eq_refl 0) as (l & Hl & Hd).
  { unfold live. vm_compute. lia. }
  vm_compute in Hl. injection Hl as <-.
  apply (f_equal (λ X : gset string, bool_decide ("node_2" ∈ X))) in Hd.
  vm_compute in Hd. discriminate.
Qed.

(** C1, amended: in every tree built by a program that only ever attaches
    nodes which are in no child list, the keys of a node's index are exactly
    the names of the nodes obtained by iterating its children. *)
Theorem C1_index_list_consistency cs :
  disciplined initial cs = true →
  ∀ p, live (run cs initial) p → index_matches_children (run cs initial) p.
Proof.
  intros Hd p Hp. destruct (disciplined_inv cs Hd) as [kids HI].
  by eapply InvK_index.
Qed.

Lemma C1_witness :
  disciplined initial family = true ∧
  live (run family initial) 0 ∧
  index_matches_children (run family initial) 0.
Proof.
  assert (Hd : disciplined initial family = true) by (vm_compute; reflexivity).
  assert (Hl : live (run family initial) 0) by (unfold live; vm_compute; lia).
  split_and!; [done..|]. exact (C1_index_list_consistency family Hd 0 Hl).
Defined.

(** C6 as stated fails: after [reinsertion] the head of the child list of
    [0] is node [1], whose [prev] is node [2] and not absent. *)
Lemma C6_counterexample :
  ¬ (∀ cs, well_typed initial cs = true →
       ∀ p, live (run cs initial) p →
            doubly_linked_children (run cs initial) p).
Proof.
  intros H.
  destruct (H reinsertion eq_refl 0) as (l & _ & _ & _ & Hhp & _).
  { unfold live. vm_compute. lia. }
  vm_compute in Hhp. discriminate.
Qed.

(** C6, amended: in every tree built by a program that only ever attaches
    nodes which are in no child list, every child list is doubly linked:
    [c.prev.next is c] for each member but the head, [c.next.prev is c] for
    each member but the tail, [head.prev] and [tail.next] are absent, and
    [head] and [tail] are both absent exactly when the list is empty. *)
Theorem C6_doubly_linked cs :
  disciplined initial cs = true →
  ∀ p, live (run cs initial) p → doubly_linked_children (run cs initial) p.
Proof.
  intros Hd p Hp. destruct (disciplined_inv cs Hd) as [kids HI].
  exists (kids p). split; [by apply InvK_iterate|].
  apply dll_doubly_linked. by apply (inv_dll _ _ HI).
Qed.

Lemma C6_witness :
  disciplined initial family = true ∧
  live (run family initial) 0 ∧
  doubly_linked_children (run family initial) 0.
Proof.
  assert (Hd : disciplined initial family = true) by (vm_compute; reflexivity).
  assert (Hl : live (run family initial) 0) by (unfold live; vm_compute; lia).
  split_and!; [done..|]. exact (C6_doubly_linked family Hd 0 Hl).
Defined.

(** C8 as stated fails: after [two_parents], node [2] is met when iterating
    the children of [0] and when iterating the children of [1]. *)
Lemma C8_counterexample :
  ¬ (∀ cs, well_typed initial cs = true → single_parent (run cs initial)).
Proof.
  intros H.
  assert (0 = 1); [|done].
  apply (H two_parents eq_refl 2 0 1 [2] [2]).
  - unfold live. vm_compute. lia.
  - unfold live. vm_compute. lia.
  - vm_compute. reflexivity.
  - by left.
  - vm_compute. reflexivity.
  - by left.
Qed.

(** C8, amended: in every tree built by a program that only ever attaches
    nodes which are in no child list, no node is a member of the child lists
    of two different parents. *)
Theorem C8_single_parent cs :
  disciplined initial cs = true → single_parent (run cs initial).
Proof.
  intros Hd. destruct (disciplined_inv cs Hd) as [kids HI].
  intros c p q l1 l2 Hp Hq Hl1 Hc1 Hl2 Hc2.
  rewrite (InvK_iterate _ _ p HI Hp) in Hl1. injection Hl1 as <-.
  rewrite (InvK_iterate _ _ q HI Hq) in Hl2. injection Hl2 as <-.
  by apply (inv_disj _ _ HI p q c).
Qed.

Lemma C8_witness :
  disciplined initial family = true ∧ single_parent (run family initial).
Proof.
  assert (Hd : disciplined initial family = true) by (vm_compute; reflexivity).
  split; [done|]. exact (C8_single_parent family Hd).
Defined.

(** ** Which exceptions a computation can raise, and what it leaves alone *)

Section Effects.
Context {A B : Type}.
Implicit Types (m : M A) (f : A → M B).

Lemma counts_up_bind m f :
  counts_up m → (∀ a, counts_up (f a)) → counts_up (bind m f).
Proof.
  intros Hm Hf s. unfold bind. specialize (Hm s).
  destruct (m s) as [a s1|e s1] eqn:E; simpl in *; [|done].
  specialize (Hf a s1). lia.
Qed.

Lemma counts_up_ret (a : A) : counts_up (ret a).
Proof. by intros s. Qed.

Lemma counts_up_raise e : counts_up (raise (A := A) e).
Proof. by intros s. Qed.

Lemma counts_up_getattr (g : Node → A) o : counts_up (getattr g o).
Proof. by intros s. Qed.

Lemma no_NotAChild_bind m f :
  no_NotAChild m → (∀ a, no_NotAChild (f a)) → no_NotAChild (bind m f).
Proof.
  intros Hm Hf s s'. unfold bind. destruct (m s) as [a s1|e s1] eqn:E.
  - apply Hf.
  - intros [= -> ->]. by apply (Hm s s').
Qed.

Lemma no_NotAChild_ret (a : A) : no_NotAChild (ret a).
Proof. by intros s s'. Qed.

Lemma no_NotAChild_getattr (g : Node → A) o : no_NotAChild (getattr g o).
Proof. by intros s s'. Qed.

Lemma keeps_parent_bind m f :
  keeps_parent m → (∀ a, keeps_parent (f a)) → keeps_parent (bind m f).
Proof.
  intros Hm Hf s c. unfold bind. specialize (Hm s c).
  destruct (m s) as [a s1|e s1] eqn:E; simpl in *; [|done].
  by rewrite Hf.
Qed.

Lemma keeps_parent_ret (a : A) : keeps_parent (ret a).
Proof. by intros s c. Qed.

Lemma keeps_parent_raise e : keeps_parent (raise (A := A) e).
Proof. by intros s c. Qed.

Lemma keeps_parent_getattr (g : Node → A) o : keeps_parent (getattr g o).
Proof. by intros s c. Qed.

End Effects.

Lemma no_NotAChild_setattr u o : no_NotAChild (setattr u o).
Proof. by intros s s'. Qed.

Lemma no_NotAChild_deref r : no_NotAChild (deref r).
Proof. by destruct r; intros s s'. Qed.

Lemma no_NotAChild_raise {A} e : e ≠ NotAChild → no_NotAChild (raise (A := A) e).
Proof. intros He s s' [= ->]. done. Qed.

Lemma keeps_parent_setattr u o :
  (∀ n, parent (u n) = parent n) → keeps_parent (setattr u o).
Proof.
  intros Hu s c. simpl. unfold insert, fn_insert.
  destruct (decide (o = c)) as [->|]; [apply Hu|done].
Qed.

Lemma counts_up_setattr u o : counts_up (setattr u o).
Proof. by intros s. Qed.

Lemma counts_up_deref r : counts_up (deref r).
Proof. by destruct r; intros s. Qed.

Lemma counts_up_make_name self : counts_up (make_name self).
Proof. intros s. simpl. lia. Qed.

Lemma counts_up_alloc : counts_up alloc.
Proof. by intros s. Qed.

Ltac effects :=
  repeat first
    [ apply no_NotAChild_bind; [|intros ?]
    | apply keeps_parent_bind; [|intros ?]
    | apply counts_up_bind; [|intros ?]
    | apply counts_up_ret | apply counts_up_raise | apply counts_up_getattr
    | apply counts_up_setattr | apply counts_up_deref
    | apply counts_up_make_name | apply counts_up_alloc
    | apply no_NotAChild_ret | apply no_NotAChild_getattr
    | apply no_NotAChild_setattr | apply no_NotAChild_deref
    | apply no_NotAChild_raise; done
    | apply keeps_parent_ret | apply keeps_parent_getattr
    | apply keeps_parent_raise
    | apply keeps_parent_setattr; done
    | case_decide | case_match ].

Lemma delete_no_NotAChild p node : no_NotAChild (delete p node).
Proof. unfold delete. effects. Qed.

Lemma cmap_pop_no_NotAChild p k : no_NotAChild (cmap_pop p k).
Proof. unfold cmap_pop. effects. Qed.

Lemma cmap_setitem_no_NotAChild p k v : no_NotAChild (cmap_setitem p k v).
Proof. unfold cmap_setitem. effects. Qed.

Lemma list_insert_before_no_NotAChild p ref new :
  no_NotAChild (list_insert_before p ref new).
Proof. unfold list_insert_before. effects. Qed.

Lemma insert_before_keeps_parent self new ref :
  keeps_parent (insert_before self new ref).
Proof.
  unfold insert_before, append, list_insert_before, has_as_child, cmap_setitem.
  effects.
Qed.

Lemma registered_false s self x :
  registered s self x = false ↔ cmap_of s self !! name_of s x = None.
Proof.
  unfold registered. rewrite bool_decide_eq_false, eq_None_not_Some. done.
Qed.

Lemma guarded_raise {A} (m : loc → loc → M A) s self x s' :
  (∀ a b, no_NotAChild (m a b)) →
  child_existence_required m self x s = Raise NotAChild s' ↔
  registered s self x = false ∧ s' = s.
Proof.
  intros Hm. destruct (registered s self x) eqn:Hr.
  - rewrite child_existence_required_pass
      by (by apply bool_decide_eq_true in Hr).
    split; [|by intros [? _]]. intros E. by destruct (Hm self x s s').
  - rewrite child_existence_required_raise by (by apply registered_false).
    split; [by intros [= ->]|by intros [_ ->]].
Qed.

(** When the tree is well formed, being registered in the index is being
    met by the iteration of the children. *)
Lemma registered_iff_member cs p c :
  disciplined initial cs = true →
  live (run cs initial) p → live (run cs initial) c →
  registered (run cs initial) p c = true ↔
  ∃ l, iterate (run cs initial) p = Some l ∧ c ∈ l.
Proof.
  intros Hd Hp Hc. destruct (disciplined_inv cs Hd) as [kids HI].
  unfold registered. rewrite bool_decide_eq_true.
  rewrite (InvK_has_as_child _ kids p c HI Hp Hc).
  rewrite (InvK_iterate _ kids p HI Hp). split.
  - intros Hin. by exists (kids p).
  - by intros (l & [= <-] & Hin).
Qed.

(** C2: [insert_before] with an explicit [ref], [replace_child] and
    [remove_child] raise [NotAChild] if and only if the reference or target
    [x] is not a child of the receiver, as [has_as_child] tells it, and the
    store in which the exception is raised is the store before the call:
    nothing has been assigned.  In a tree built by a disciplined program,
    [has_as_child] holds of exactly the nodes that iterating the children
    yields. *)
Theorem C2_not_a_child_iff_no_mutation s self x new s' :
  has_as_child self (name_of s x) s = Ok (registered s self x) s ∧
  (insert_before self new (Some x) s = Raise NotAChild s' ↔
     registered s self x = false ∧ s' = s) ∧
  (replace_child self x new s = Raise NotAChild s' ↔
     registered s self x = false ∧ s' = s) ∧
  (remove_child self x s = Raise NotAChild s' ↔
     registered s self x = false ∧ s' = s) ∧
  (∀ cs, disciplined initial cs = true → s = run cs initial →
         live s self → live s x →
         registered s self x = true ↔ ∃ l, iterate s self = Some l ∧ x ∈ l).
Proof.
  split_and!; [| | | |by intros cs Hd -> ? ?; apply registered_iff_member].
  - done.
  - destruct (registered s self x) eqn:Hr.
    + split; [|by intros [? _]]. intros E. exfalso. revert E.
      unfold insert_before, has_as_child. run_calls.
      unfold registered, cmap_of, name_of in Hr. rewrite Hr.
      destruct (list_insert_before_total s self x new) as (s1 & ->).
      run_calls.
      by destruct (cmap_setitem_spec s1 self (name (heap s1 new)) new)
        as (s2 & -> & _).
    + rewrite insert_before_raise by (by apply registered_false).
      split; [by intros [= ->]|by intros [_ ->]].
  - apply guarded_raise. intros a b.
    pose proof list_insert_before_no_NotAChild.
    pose proof cmap_setitem_no_NotAChild.
    pose proof delete_no_NotAChild.
    pose proof cmap_pop_no_NotAChild.
    effects; done.
  - apply guarded_raise. intros a b.
    pose proof delete_no_NotAChild.
    pose proof cmap_pop_no_NotAChild.
    effects; done.
Qed.

Lemma C2_witness :
  registered (run family initial) 0 3 = false ∧
  insert_before 0 1 (Some 3) (run family initial)
  = Raise NotAChild (run family initial).
Proof.
  assert (Hr : registered (run family initial) 0 3 = false)
    by (vm_compute; reflexivity).
  split; [exact Hr|].
  destruct (C2_not_a_child_iff_no_mutation (run family initial) 0 3 1
              (run family initial)) as (_ & [_ H] & _).
  exact (H (conj Hr eq_refl)).
Defined.

(** C9: [insert_before] never assigns [parent]: in the store it leaves,
    whether it returned or raised, [new.parent] (and the [parent] of every
    other node) is what it was before the call. *)
Theorem C9_insert_before_keeps_parent s self new ref c :
  parent (heap (state_of (insert_before self new ref s)) new)
  = parent (heap s new) ∧
  parent (heap (state_of (insert_before self new ref s)) c)
  = parent (heap s c).
Proof. split; apply insert_before_keeps_parent. Qed.

(** Node [3] was created without a parent; inserted under [0], it still has
    none. *)
Lemma C9_witness :
  parent (heap (run family initial) 3) = None ∧
  parent (heap (state_of (insert_before 0 3 None (run family initial))) 3)
  = None.
Proof.
  assert (Hp : parent (heap (run family initial) 3) = None)
    by (vm_compute; reflexivity).
  split; [done|].
  rewrite <-Hp.
  exact (proj1 (C9_insert_before_keeps_parent (run family initial) 0 3 None 3)).
Defined.

Lemma constructions_counts ts s :
  nalloc (run (constructions ts) s) = nalloc s + length ts ∧
  _count (run (constructions ts) s) = _count s + length ts.
Proof.
  revert s. induction ts as [|[t par] ts IH]; intros s; [simpl; lia|].
  change (run (constructions ((t, par) :: ts)) s)
    with (run (constructions ts) (exec (New t par) s)).
  destruct (IH (exec (New t par) s)) as [-> ->]. simpl. lia.
Qed.

(** C3 as stated fails: the eighth node, constructed with node type
    [ELEMENT], is named [node_7], not [element_7]. *)
Lemma C3_counterexample :
  ¬ (∀ s t par, ∃ self s',
       new_node t par s = Ok self s' ∧
       name_of s' self = spec_name t (_count s)).
Proof.
  intros H.
  destruct (H (run (constructions (replicate 7 (ELEMENT, None))) initial)
              ELEMENT None) as (self & s' & E & Hn).
  vm_compute in E. injection E as <- <-.
  vm_compute in Hn. discriminate.
Qed.

(** C3, amended: the name assigned at construction is the lowercase class
    name [node], an underscore and the next value of the global counter,
    whatever the node type; the counter never decreases, and in a process
    that has only constructed nodes, the node constructed after [n] others
    is named [node_n]. *)
Theorem C3_name_at_construction :
  (∀ s t par, ∃ s',
     new_node t par s = Ok (nalloc s) s' ∧
     name_of s' (nalloc s) = "node_" +:+ pretty (_count s) ∧
     node_type (heap s' (nalloc s)) = t ∧
     _count s' = S (_count s)) ∧
  (∀ k s, _count s ≤ _count (exec k s)) ∧
  (∀ ts t par,
     name_of (exec (New t par) (run (constructions ts) initial)) (length ts)
     = "node_" +:+ pretty (length ts)).
Proof.
  split_and!.
  - intros s t par.
    destruct (new_node_ok s t par) as (s' & E & _ & Hc & Hn & _).
    exists s'. unfold name_of. rewrite Hn. by split_and!.
  - intros k s. destruct k as [t par|self|self new [r|]|self old new|self child];
      unfold exec;
      match goal with |- _ ≤ _count (state_of (?m s)) => revert s; change (counts_up m) end;
      unfold new_node, insert_before, replace_child,
        remove_child, child_existence_required, has_as_child, append,
        list_insert_before, cmap_setitem, delete, cmap_pop;
      effects.
  - intros ts t par. unfold exec.
    destruct (constructions_counts ts initial) as [Hna Hco].
    change (nalloc initial + length ts) with (length ts) in Hna.
    change (_count initial + length ts) with (length ts) in Hco.
    destruct (new_node_ok (run (constructions ts) initial) t par)
      as (s' & -> & _ & _ & Hn & _).
    unfold name_of, state_of. rewrite <-Hna at 1. rewrite Hn. simpl.
    by rewrite Hco.
Qed.

(** C4 as stated fails: [0] has the children [1; 2]; appending [1] again
    succeeds, and iteration then yields [1] alone instead of [1; 2; 1]. *)
Lemma C4_counterexample :
  ¬ (∀ cs, well_typed initial cs = true →
       ∀ p new, live (run cs initial) p → live (run cs initial) new →
         (∀ l r s', iterate (run cs initial) p = Some l →
                    insert_before p new None (run cs initial) = Ok r s' →
                    iterate s' p = Some (l ++ [new])) ∧
         (∀ ref l1 l2 r s',
            iterate (run cs initial) p = Some (l1 ++ ref :: l2) →
            insert_before p new (Some ref) (run cs initial) = Ok r s' →
            iterate s' p = Some (l1 ++ new :: ref :: l2))).
Proof.
  intros H.
  destruct (H family eq_refl 0 1) as [Ha _].
  { unfold live. vm_compute. lia. }
  { unfold live. vm_compute. lia. }
  specialize (Ha [1; 2] 1
                (state_of (insert_before 0 1 None (run family initial)))).
  assert (Hi : iterate (state_of (insert_before 0 1 None (run family initial))) 0
               = Some [1]) by (vm_compute; reflexivity).
  rewrite Hi in Ha.
  assert (Some [1] = Some ([1; 2] ++ [1])) as [=]. 
  apply Ha; vm_compute; reflexivity.
Qed.

(** C4, amended: in a tree built by a program that only ever attaches nodes
    which are in no child list, and for a node [new] that is in no child
    list, [insert_before(new, ref)] with [ref] a child succeeds and places
    [new] immediately before [ref] in the iteration order, and
    [insert_before(new)] succeeds and appends [new] at the end; the other
    children keep their relative order. *)
Theorem C4_insertion_order cs p new :
  disciplined initial cs = true →
  live (run cs initial) p → live (run cs initial) new →
  unattached (run cs initial) new = true →
  (∃ l s', iterate (run cs initial) p = Some l ∧
           insert_before p new None (run cs initial) = Ok new s' ∧
           iterate s' p = Some (l ++ [new])) ∧
  (∀ ref l1 l2,
     iterate (run cs initial) p = Some (l1 ++ ref :: l2) →
     ∃ s', insert_before p new (Some ref) (run cs initial) = Ok new s' ∧
           iterate s' p = Some (l1 ++ new :: ref :: l2)).
Proof.
  intros Hd Hp Hn Hu. destruct (disciplined_inv cs Hd) as [kids HI].
  pose proof (unattached_detached _ kids new HI Hu) as Hdet.
  pose proof (InvK_iterate _ kids p HI Hp) as Hit.
  split.
  - destruct (insert_before_None_ok _ kids p new HI Hp Hn Hdet)
      as (s' & E & (Hna & _) & HI').
    exists (kids p), s'. split_and!; [done..|].
    rewrite (InvK_iterate s' _ p HI') by (unfold live in *; lia).
    by rewrite fn_lookup_insert.
  - intros ref l1 l2 Hl. rewrite Hit in Hl. injection Hl as Hk.
    destruct (insert_before_Some_ok _ kids p new ref l1 l2 HI Hp Hn Hdet Hk)
      as (s' & E & (Hna & _) & HI').
    exists s'. split; [done|].
    rewrite (InvK_iterate s' _ p HI') by (unfold live in *; lia).
    by rewrite fn_lookup_insert.
Qed.

Lemma C4_witness :
  disciplined initial family = true ∧
  live (run family initial) 0 ∧ live (run family initial) 3 ∧
  unattached (run family initial) 3 = true ∧
  iterate (run family initial) 0 = Some ([1] ++ 2 :: []) ∧
  ∃ s', insert_before 0 3 (Some 2) (run family initial) = Ok 3 s' ∧
        iterate s' 0 = Some ([1] ++ 3 :: 2 :: []).
Proof.
  assert (Hd : disciplined initial family = true) by (vm_compute; reflexivity).
  assert (Hp : live (run family initial) 0) by (unfold live; vm_compute; lia).
  assert (Hn : live (run family initial) 3) by (unfold live; vm_compute; lia).
  assert (Hu : unattached (run family initial) 3 = true)
    by (vm_compute; reflexivity).
  assert (Hl : iterate (run family initial) 0 = Some ([1] ++ 2 :: []))
    by (vm_compute; reflexivity).
  split_and!; [done..|].
  exact (proj2 (C4_insertion_order family 0 3 Hd Hp Hn Hu) 2 [1] [] Hl).
Defined.

(** C5 as stated fails: [0] has the children [1; 2]; after
    [remove_child(1)] the [next] of the removed node [1] is still node [2]. *)
Lemma C5_counterexample :
  ¬ (∀ cs, well_typed initial cs = true →
       (∀ p child r s',
          remove_child p child (run cs initial) = Ok r s' →
          r = child ∧ prev_of s' child = None ∧ next_of s' child = None ∧
          cmap_of s' p !! name_of s' child = None) ∧
       (∀ p old new r s',
          replace_child p old new (run cs initial) = Ok r s' →
          r = old ∧ prev_of s' old = None ∧ next_of s' old = None ∧
          cmap_of s' p !! name_of s' old = None)).
Proof.
  intros H. destruct (H family eq_refl) as [Hr _].
  destruct (Hr 0 1 1 (state_of (remove_child 0 1 (run family initial))))
    as (_ & _ & Hn & _).
  { vm_compute. reflexivity. }
  vm_compute in Hn. discriminate.
Qed.

Section Detachment.
Variables (s : State) (kids : loc → list loc) (p : loc).
Hypothesis HI : InvK s kids.
Hypothesis Hp : live s p.

Lemma InvK_neighbours l1 x l2 :
  kids p = l1 ++ x :: l2 →
  prev_of s x = last l1 ∧ next_of s x = l2 !! 0 ∧
  (x ∉ l1) ∧ (x ∉ l2) ∧ live s x.
Proof using HI Hp.
  intros Hk. destruct (inv_dll _ _ HI p Hp) as (Hnd & _ & _ & Hseg).
  rewrite Hk in Hnd, Hseg.
  apply seg_app in Hseg as (_ & Hpr & Hnx & _).
  apply NoDup_app in Hnd as (_ & Hnd & (Hx2 & _)%NoDup_cons).
  split_and!.
  - by rewrite Hpr, lst_or_None.
  - rewrite Hnx. by destruct l2.
  - intros Hx. apply (Hnd x Hx). by left.
  - done.
  - apply (inv_live _ _ HI p x Hp). rewrite Hk. apply elem_of_app.
    right. by left.
Qed.

Lemma InvK_not_registered x :
  live s x → x ∉ kids p → cmap_of s p !! name_of s x = None.
Proof using HI Hp.
  intros Hx Hn. apply eq_None_not_Some. intros Hs.
  by apply (InvK_has_as_child s kids p x HI Hp Hx) in Hs.
Qed.

End Detachment.

(** C5, amended: in a tree built by a program that only ever attaches nodes
    which are in no child list, [remove_child(x)] and [replace_child(x,
    new)] on a child [x] return [x] itself, its name is no longer a key of
    the parent's index and iteration no longer yields it, and [x] keeps its
    name, node type and parent.  Its sibling linkage is not cleared:
    [remove_child] leaves [x.prev] and [x.next] referring to the former
    neighbours of [x], and [replace_child] leaves [x.prev] referring to
    [new] and [x.next] to the former successor of [x]. *)
Theorem C5_detachment cs p l1 x l2 :
  disciplined initial cs = true →
  live (run cs initial) p →
  iterate (run cs initial) p = Some (l1 ++ x :: l2) →
  (∃ s', remove_child p x (run cs initial) = Ok x s' ∧
         cmap_of s' p !! name_of s' x = None ∧
         iterate s' p = Some (l1 ++ l2) ∧
         same_frame (run cs initial) s' ∧
         prev_of s' x = last l1 ∧ next_of s' x = l2 !! 0) ∧
  (∀ new, live (run cs initial) new →
          unattached (run cs initial) new = true →
     ∃ s', replace_child p x new (run cs initial) = Ok x s' ∧
           cmap_of s' p !! name_of s' x = None ∧
           iterate s' p = Some (l1 ++ new :: l2) ∧
           same_frame (run cs initial) s' ∧
           prev_of s' x = Some new ∧ next_of s' x = l2 !! 0).
Proof.
  intros Hd Hp Hl. destruct (disciplined_inv cs Hd) as [kids HI].
  rewrite (InvK_iterate _ kids p HI Hp) in Hl. injection Hl as Hk.
  destruct (InvK_neighbours _ kids p HI Hp l1 x l2 Hk)
    as (Hpv & Hnx & Hx1 & Hx2 & Hx).
  split.
  - destruct (remove_child_ok _ kids p x l1 l2 HI Hp Hk)
      as (s' & E & F & HI' & Hpv' & Hnx').
    assert (Hlive : ∀ c, live (run cs initial) c → live s' c).
    { intros c. unfold live. destruct F as (-> & _). done. }
    exists s'. split_and!; [done| | |done|congruence|congruence].
    + apply (InvK_not_registered s' _ p HI'); [by apply Hlive..|].
      rewrite fn_lookup_insert. by intros [?|?]%elem_of_app.
    + rewrite (InvK_iterate s' _ p HI') by (by apply Hlive).
      by rewrite fn_lookup_insert.
  - intros new Hn Hu.
    pose proof (unattached_detached _ kids new HI Hu) as Hdet.
    destruct (replace_child_ok _ kids p x new l1 l2 HI Hp Hn Hdet Hk)
      as (s' & E & F & HI' & Hpv' & Hnx').
    assert (Hlive : ∀ c, live (run cs initial) c → live s' c).
    { intros c. unfold live. destruct F as (-> & _). done. }
    assert (Hne : x ≠ new).
    { intros ->. apply (Hdet p Hp). rewrite Hk. apply elem_of_app.
      right. by left. }
    exists s'. split_and!; [done| | |done|done|congruence].
    + apply (InvK_not_registered s' _ p HI'); [by apply Hlive..|].
      rewrite fn_lookup_insert.
      by intros [?|[?|?]%elem_of_cons]%elem_of_app.
    + rewrite (InvK_iterate s' _ p HI') by (by apply Hlive).
      by rewrite fn_lookup_insert.
Qed.

Lemma C5_witness :
  disciplined initial family = true ∧
  live (run family initial) 0 ∧
  iterate (run family initial) 0 = Some ([] ++ 1 :: [2]) ∧
  ∃ s', remove_child 0 1 (run family initial) = Ok 1 s' ∧
        cmap_of s' 0 !! name_of s' 1 = None ∧
        iterate s' 0 = Some ([] ++ [2]) ∧
        same_frame (run family initial) s' ∧
        prev_of s' 1 = last [] ∧ next_of s' 1 = [2] !! 0.
Proof.
  assert (Hd : disciplined initial family = true) by (vm_compute; reflexivity).
  assert (Hp : live (run family initial) 0) by (unfold live; vm_compute; lia).
  assert (Hl : iterate (run family initial) 0 = Some ([] ++ 1 :: [2]))
    by (vm_compute; reflexivity).
  split_and!; [done..|].
  exact (proj1 (C5_detachment family 0 [] 1 [2] Hd Hp Hl)).
Defined.

(** C10: for a member [node] of a doubly-linked child list, [delete] finds
    [node.prev] present when [node] is not the head and [node.next] present
    when it is not the tail, so it returns without an [AttributeError]; and
    [_childrenlist.insert_before], which tests [new.prev] before writing
    through it, always returns. *)
Theorem C10_delete_total s p l node :
  iterate s p = Some l → doubly_linked s p l → node ∈ l →
  (head_of s p ≠ Some node → is_Some (prev_of s node)) ∧
  (tail_of s p ≠ Some node → is_Some (next_of s node)) ∧
  (∃ s', delete p node s = Ok tt s') ∧
  (∀ ref new, ∃ s', list_insert_before p ref new s = Ok tt s').
Proof.
  intros _ (Hprev & Hnext & _) Hin.
  rewrite Forall_forall in Hprev, Hnext.
  assert (Hp : head_of s p ≠ Some node → is_Some (prev_of s node)).
  { intros Hne. specialize (Hprev node Hin Hne).
    destruct (prev_of s node); [by eexists|done]. }
  assert (Hn : tail_of s p ≠ Some node → is_Some (next_of s node)).
  { intros Hne. specialize (Hnext node Hin Hne).
    destruct (next_of s node); [by eexists|done]. }
  split_and!; [done|done| |].
  - destruct (delete_spec s p node Hp Hn) as (s' & E & _). by exists s'.
  - intros ref new. apply list_insert_before_total.
Qed.

Lemma C10_witness :
  iterate (run family initial) 0 = Some [1; 2] ∧
  doubly_linked (run family initial) 0 [1; 2] ∧
  2 ∈ [1; 2] ∧
  ∃ s', delete 0 2 (run family initial) = Ok tt s'.
Proof.
  assert (Hl : iterate (run family initial) 0 = Some [1; 2])
    by (vm_compute; reflexivity).
  assert (Hd : doubly_linked (run family initial) 0 [1; 2]).
  { apply (bool_decide_unpack _). vm_compute. exact I. }
  assert (Hin : 2 ∈ [1; 2]) by (right; left).
  split_and!; [done..|].
  exact (proj1 (proj2 (proj2
           (C10_delete_total (run family initial) 0 [1; 2] 2 Hl Hd Hin)))).
Defined.

Lemma same_frame_name s s' c : same_frame s s' → name_of s' c = name_of s c.
Proof. intros (_ & _ & F). apply F. Qed.

Lemma same_frame_nalloc s s' : same_frame s s' → nalloc s' = nalloc s.
Proof. by intros (? & _). Qed.

(** C7 as stated fails: after [double_reinsertion] the parent [0] iterates
    [1; 2], yet [replace_child(1, 3)] leaves [3.next] at [2] and [2.next] at
    [3], so that iteration does not yield [3; 2]. *)
Lemma C7_counterexample :
  ¬ (∀ cs, well_typed initial cs = true →
       ∀ P A B C : loc,
         live (run cs initial) P → live (run cs initial) C →
         C ≠ A → C ≠ B →
         iterate (run cs initial) P = Some [A; B] →
         ∃ s', replace_child P A C (run cs initial) = Ok A s' ∧
               iterate s' P = Some [C; B] ∧
               has_as_child P (name_of s' A) s' = Ok false s' ∧
               has_as_child P (name_of s' C) s' = Ok true s').
Proof.
  intros H.
  destruct (H double_reinsertion eq_refl 0 1 2 3) as (s' & E & Hit & _).
  { unfold live. vm_compute. lia. }
  { unfold live. vm_compute. lia. }
  { lia. }
  { lia. }
  { vm_compute. reflexivity. }
  apply (f_equal state_of) in E.
  change (state_of (Ok 1 s')) with s' in E. subst s'.
  vm_compute in Hit. discriminate.
Qed.

(** C7, amended: in a tree built by a program that only ever attaches nodes
    which are in no child list, for a parent [P] with the children [A; B]
    in order and a third node [C], [replace_child(A, C)] returns [A];
    afterwards iteration yields [C; B], [has_as_child(A)] is false and
    [has_as_child(C)] is true. *)
Theorem C7_replace_child_scenario cs (P A B C : loc) :
  disciplined initial cs = true →
  live (run cs initial) P → live (run cs initial) C →
  C ≠ A → C ≠ B →
  iterate (run cs initial) P = Some [A; B] →
  ∃ s', replace_child P A C (run cs initial) = Ok A s' ∧
        iterate s' P = Some [C; B] ∧
        has_as_child P (name_of s' A) s' = Ok false s' ∧
        has_as_child P (name_of s' C) s' = Ok true s'.
Proof.
  intros Hd HP HC HCA HCB Hl. destruct (disciplined_inv cs Hd) as [kids HI].
  remember (run cs initial) as s eqn:Hs. clear Hs Hd.
  rewrite (InvK_iterate _ kids P HI HP) in Hl. injection Hl as Hk.
  destruct (inv_dll _ _ HI P HP) as (Hnd & Hh & Ht & Hseg).
  rewrite Hk in Hnd, Hh, Ht, Hseg. simpl in Hh, Ht, Hseg.
  destruct Hseg as (HpA & HnA & HpB & HnB & _).
  assert (HAB : A ≠ B).
  { apply NoDup_cons in Hnd as [Hn _]. intros ->. apply Hn. by left. }
  assert (HA : live s A).
  { apply (inv_live _ _ HI P A HP). rewrite Hk. by left. }
  assert (HB : live s B).
  { apply (inv_live _ _ HI P B HP). rewrite Hk. right. by left. }
  assert (Hnm : name_of s C ≠ name_of s A).
  { intros Hn. by apply (inv_name _ _ HI) in Hn. }
  assert (HcA : cmap_of s P !! name_of s A = Some A).
  { apply (inv_cmap _ _ HI); [done|]. split; [|done]. rewrite Hk. by left. }
  destruct (list_insert_before_spec s P A C HCA)
    as (s1 & E1 & F1 & P1 & N1 & H1 & T1 & C1).
  destruct (cmap_setitem_spec s1 P (name_of s1 C) C)
    as (s2 & E2 & F2 & P2 & N2 & H2 & T2 & C2).
  assert (Hh2 : head_of s2 P = Some C).
  { rewrite H2, H1. by rewrite decide_True. }
  assert (Ht2 : tail_of s2 P = Some B) by (by rewrite T2, T1).
  assert (HpA2 : prev_of s2 A = Some C).
  { rewrite P2, P1. by rewrite decide_True. }
  assert (HnA2 : next_of s2 A = Some B).
  { rewrite N2, N1, HpA. rewrite decide_False by done.
    by rewrite decide_False by done. }
  assert (HnB2 : next_of s2 B = None).
  { rewrite N2, N1, HpA. rewrite decide_False by done.
    by rewrite decide_False by done. }
  destruct (delete_spec s2 P A) as (s3 & E3 & F3 & P3 & N3 & H3 & T3 & C3).
  { intros _. by rewrite HpA2. }
  { intros _. by rewrite HnA2. }
  pose proof (same_frame_trans _ _ _ F1 F2) as F12.
  pose proof (same_frame_trans _ _ _ F12 F3) as F13.
  assert (HcA3 : cmap_of s3 P !! name_of s3 A = Some A).
  { rewrite C3, C2, decide_True, C1 by done.
    rewrite (same_frame_name s s1 C F1), (same_frame_name s s3 A F13).
    by rewrite lookup_insert_ne. }
  destruct (cmap_pop_spec s3 P (name_of s3 A) A HcA3)
    as (s4 & E4 & F4 & P4 & N4 & H4 & T4 & C4).
  pose proof (same_frame_trans _ _ _ F13 F4) as F14.
  assert (Hc4 : cmap_of s4 P
                = base.delete (name_of s A) (<[name_of s C := C]> (cmap_of s P))).
  { rewrite C4, decide_True, C3, C2, decide_True, C1 by done.
    by rewrite (same_frame_name s s1 C F1), (same_frame_name s s3 A F13). }
  exists s4. split_and!.
  - unfold replace_child. rewrite child_existence_required_pass by (by eexists).
    run_calls. rewrite E1. run_calls. unfold name_of in E2. rewrite E2.
    run_calls. rewrite E3. run_calls. unfold name_of in E4. by rewrite E4.
  - unfold iterate. fold (head_of s4 P).
    rewrite H4, H3, Hh2. rewrite decide_False by (by intros [_ [= ->]]).
    rewrite (same_frame_nalloc s s4 F14).
    assert (Hfuel : 2 ≤ nalloc s) by (unfold live in *; lia).
    destruct (nalloc s) as [|[|n]]; [lia..|]. simpl.
    fold (next_of s4 C). rewrite N4, N3, HnA2, HpA2, Hh2.
    rewrite decide_True by (split; [by intros [= ->]|done]). simpl.
    destruct n as [|n]; simpl;
      fold (next_of s4 B); rewrite N4, N3, HnB2, HpA2;
      rewrite decide_False by (by intros [_ [= ->]]); done.
  - unfold has_as_child. run_calls. fold (cmap_of s4 P).
    rewrite bool_decide_false; [done|].
    rewrite Hc4, (same_frame_name s s4 A F14), lookup_delete_eq.
    by intros [? ?].
  - unfold has_as_child. run_calls. fold (cmap_of s4 P).
    rewrite bool_decide_true; [done|].
    rewrite Hc4, (same_frame_name s s4 C F14).
    rewrite lookup_delete_ne by done. rewrite lookup_insert_eq. by eexists.
Qed.

Lemma C7_witness :
  disciplined initial family = true ∧
  live (run family initial) 0 ∧ live (run family initial) 3 ∧
  iterate (run family initial) 0 = Some [1; 2] ∧
  ∃ s', replace_child 0 1 3 (run family initial) = Ok 1 s' ∧
        iterate s' 0 = Some [3; 2] ∧
        has_as_child 0 (name_of s' 1) s' = Ok false s' ∧
        has_as_child 0 (name_of s' 3) s' = Ok true s'.
Proof.
  assert (Hd : disciplined initial family = true) by (vm_compute; reflexivity).
  assert (HP : live (run family initial) 0) by (unfold live; vm_compute; lia).
  assert (HC : live (run family initial) 3) by (unfold live; vm_compute; lia).
  assert (Hl : iterate (run family initial) 0 = Some [1; 2])
    by (vm_compute; reflexivity).
  split_and!; [done..|].
  refine (C7_replace_child_scenario family 0 1 2 3 Hd HP HC _ _ Hl); lia.
Defined.

(** ** The iterator protocol *)

Section Iterator.
Implicit Types (σ : IterState) (p q c : loc) (l : list loc).

Lemma drain_from_cursor fuel p σ cur :
  _tmp_head σ p = Cursor cur →
  (drain fuel p σ).1 = iter_from (heap (store σ)) fuel cur ∧
  store (drain fuel p σ).2 = store σ ∧
  (∀ q, q ≠ p → _tmp_head (drain fuel p σ).2 q = _tmp_head σ q) ∧
  (is_Some (drain fuel p σ).1 → _tmp_head (drain fuel p σ).2 p = Cursor None).
Proof.
  revert σ cur. induction fuel as [|fuel IH]; intros σ cur Hc.
  - unfold drain, list_next. rewrite Hc. destruct cur as [c|]; simpl.
    + split_and!; [done|done| |by intros [? ?]].
      intros q Hq. by rewrite fn_lookup_insert_ne.
    + split_and!; done.
  - simpl. unfold list_next. rewrite Hc. destruct cur as [c|]; simpl.
    + set (σ' := mkIterState (store σ)
                   (<[p:=Cursor (next_of (store σ) c)]> (_tmp_head σ))).
      destruct (IH σ' (next_of (store σ) c)) as (H1 & H2 & H3 & H4).
      { simpl. by rewrite fn_lookup_insert. }
      rewrite H1, H2. simpl. split_and!; [done|done| |].
      * intros q Hq. rewrite H3 by done. simpl.
        by rewrite fn_lookup_insert_ne.
      * intros Hs. apply H4. rewrite H1. by apply fmap_is_Some in Hs.
    + split_and!; done.
Qed.

Lemma drain_stopped fuel p σ :
  list_next p σ = (StopIteration, σ) → drain fuel p σ = (Some [], σ).
Proof. intros Hn. destruct fuel; simpl; by rewrite Hn. Qed.

End Iterator.


(** X2: an iteration that has ended leaves the cursor exhausted: a further
    [__next__] raises [StopIteration] again and changes nothing, so a loop
    over [p.children] that is still running when another loop over the same
    list ends gets no more nodes; the cursors of all other child lists are
    untouched. *)
Theorem X2_iterator_exhausted fuel p σ l :
  (drain fuel p σ).1 = Some l →
  list_next p (drain fuel p σ).2 = (StopIteration, (drain fuel p σ).2) ∧
  drain fuel p (drain fuel p σ).2 = (Some [], (drain fuel p σ).2) ∧
  ∀ q, q ≠ p → _tmp_head (drain fuel p σ).2 q = _tmp_head σ q.
Proof.
  intros Hl.
  destruct (_tmp_head σ p) as [|cur] eqn:Hc.
  { exfalso. revert Hl. destruct fuel; simpl; unfold list_next;
      by rewrite Hc. }
  destruct (drain_from_cursor fuel p σ cur Hc) as (_ & _ & H3 & H4).
  specialize (H4 (mk_is_Some _ _ Hl)).
  assert (Hn : list_next p (drain fuel p σ).2
               = (StopIteration, (drain fuel p σ).2)).
  { unfold list_next. by rewrite H4. }
  split_and!; [done| |done].
  by apply drain_stopped.
Qed.

Lemma X2_witness :
  let σ := list_iter 0 (mkIterState (run family initial) (λ _, NoCursor)) in
  (drain 4 0 σ).1 = Some [1; 2] ∧
  list_next 0 (drain 4 0 σ).2 = (StopIteration, (drain 4 0 σ).2).
Proof.
  intros σ.
  assert (Hl : (drain 4 0 σ).1 = Some [1; 2]) by (vm_compute; reflexivity).
  split; [exact Hl|].
  exact (proj1 (X2_iterator_exhausted 4 0 σ [1; 2] Hl)).
Defined.

(** ** Queries on a fresh node and on a well-formed tree *)

(** X3: a node that has just been constructed has no children:
    [has_children] is false, [first_child] returns [None] without touching
    the cursor, iterating its children yields nothing, and
    [fetch_child_by_name] returns [None] for every name.  Calling
    [__next__] on its child list before any [__iter__] raises
    [AttributeError], because the cursor [_tmp_head] does not exist yet. *)
Theorem X3_fresh_node t par σ fuel :
  let self := (construct t par σ).1 in
  let σ' := (construct t par σ).2 in
  has_children self (store σ') = Ok false (store σ') ∧
  first_child self σ' = (Return None, σ') ∧
  (drain fuel self (list_iter self σ')).1 = Some [] ∧
  (∀ k, fetch_child_by_name self k (store σ') = Ok None (store σ')) ∧
  list_next self σ' = (NoAttribute, σ').
Proof.
  unfold construct. cbv zeta. cbn [fst snd store _tmp_head].
  destruct (new_node_ok (store σ) t par) as (s' & E & _ & _ & Hn & _).
  rewrite E. cbn [state_of].
  assert (Hc : has_children (nalloc (store σ)) s' = Ok false s').
  { unfold has_children. run_calls. by rewrite Hn. }
  split_and!.
  - done.
  - unfold first_child, children_required. cbn [store]. by rewrite Hc.
  - assert (Hh : head_of s' (nalloc (store σ)) = None)
      by (unfold head_of; by rewrite Hn).
    destruct fuel; simpl; unfold list_next; simpl;
      by rewrite fn_lookup_insert, Hh.
  - intros k. unfold fetch_child_by_name. run_calls. by rewrite Hn.
  - unfold list_next. simpl. by rewrite fn_lookup_insert.
Qed.

Section Queries.
Implicit Types (s : State) (kids : loc → list loc) (p c : loc).

Lemma InvK_ends s kids p :
  InvK s kids → live s p →
  head_of s p = kids p !! 0 ∧ tail_of s p = last (kids p).
Proof.
  intros HI Hp. destruct (inv_dll _ _ HI p Hp) as (_ & -> & -> & _).
  split; [|done]. by destruct (kids p).
Qed.

Lemma InvK_second s kids p c l :
  InvK s kids → live s p → kids p = c :: l → next_of s c = l !! 0.
Proof.
  intros HI Hp Hk. destruct (inv_dll _ _ HI p Hp) as (_ & _ & _ & Hseg).
  rewrite Hk in Hseg. destruct Hseg as (_ & -> & _). by destruct l.
Qed.

End Queries.

(** X4: in a tree built by a disciplined program, [first_child] returns the
    first node that iterating the children yields, and [None] when there is
    none; it never raises.  It is not read-only: when there is a child it
    leaves the cursor of the child list at the second child, whatever
    iteration was in progress. *)
Theorem X4_first_child cs p (cursors : loc → cursor) :
  disciplined initial cs = true →
  live (run cs initial) p →
  let σ := mkIterState (run cs initial) cursors in
  ∃ l σ', iterate (run cs initial) p = Some l ∧
          first_child p σ = (Return (l !! 0), σ') ∧
          store σ' = run cs initial ∧
          (∀ q, q ≠ p → _tmp_head σ' q = cursors q) ∧
          (l = [] → σ' = σ) ∧
          (l ≠ [] → _tmp_head σ' p = Cursor (l !! 1)).
Proof.
  intros Hd Hp σ. destruct (disciplined_inv cs Hd) as [kids HI].
  destruct (InvK_ends _ kids p HI Hp) as [Hh Ht].
  exists (kids p). unfold first_child, children_required, has_children.
  run_calls. unfold isempty. subst σ. cbn [store].
  fold (head_of (run cs initial) p) (tail_of (run cs initial) p).
  rewrite Hh, Ht.
  destruct (kids p) as [|c l] eqn:Hk.
  - eexists. simpl. split_and!; try done.
    rewrite <-Hk. by apply InvK_iterate.
  - simpl. unfold list_next, list_iter. cbn [store _tmp_head].
    rewrite fn_lookup_insert, Hh.
    simpl. eexists. split_and!; [|reflexivity|..]; simpl.
    + rewrite <-Hk. by apply InvK_iterate.
    + done.
    + intros q Hq. by rewrite !fn_lookup_insert_ne.
    + done.
    + intros _. rewrite fn_lookup_insert. f_equal.
      by apply (InvK_second _ kids p).
Qed.

Lemma X4_witness :
  disciplined initial family = true ∧ live (run family initial) 0 ∧
  ∃ l σ', iterate (run family initial) 0 = Some l ∧
          first_child 0 (mkIterState (run family initial) (λ _, NoCursor))
          = (Return (l !! 0), σ') ∧
          store σ' = run family initial ∧
          (∀ q, q ≠ 0 → _tmp_head σ' q = NoCursor) ∧
          (l = [] → σ' = mkIterState (run family initial) (λ _, NoCursor)) ∧
          (l ≠ [] → _tmp_head σ' 0 = Cursor (l !! 1)).
Proof.
  assert (Hd : disciplined initial family = true) by (vm_compute; reflexivity).
  assert (Hl : live (run family initial) 0) by (unfold live; vm_compute; lia).
  split_and!; [done..|].
  exact (X4_first_child family 0 (λ _, NoCursor) Hd Hl).
Defined.

(** X5: in a tree built by a disciplined program, [has_children] is true
    exactly when iterating the children yields at least one node. *)
Theorem X5_has_children cs p :
  disciplined initial cs = true →
  live (run cs initial) p →
  ∃ l, iterate (run cs initial) p = Some l ∧
       has_children p (run cs initial)
       = Ok (bool_decide (l ≠ [])) (run cs initial).
Proof.
  intros Hd Hp. destruct (disciplined_inv cs Hd) as [kids HI].
  destruct (InvK_ends _ kids p HI Hp) as [Hh Ht].
  exists (kids p). split; [by apply InvK_iterate|].
  unfold has_children. run_calls. unfold isempty.
  fold (head_of (run cs initial) p) (tail_of (run cs initial) p).
  rewrite Hh, Ht. by destruct (kids p).
Qed.

Lemma X5_witness :
  disciplined initial family = true ∧ live (run family initial) 0 ∧
  ∃ l, iterate (run family initial) 0 = Some l ∧
       has_children 0 (run family initial)
       = Ok (bool_decide (l ≠ [])) (run family initial).
Proof.
  assert (Hd : disciplined initial family = true) by (vm_compute; reflexivity).
  assert (Hl : live (run family initial) 0) by (unfold live; vm_compute; lia).
  split_and!; [done..|].
  exact (X5_has_children family 0 Hd Hl).
Defined.

(** X6: in a tree built by a disciplined program, the sibling accessors
    follow the iteration order: for a child [x], [previous_sibling] is the
    node iterated just before [x] and [next_sibling] the node iterated just
    after it, and they are [None] for the first and the last child. *)
Theorem X6_siblings_follow_iteration cs p l1 x l2 :
  disciplined initial cs = true →
  live (run cs initial) p →
  iterate (run cs initial) p = Some (l1 ++ x :: l2) →
  previous_sibling x (run cs initial) = Ok (last l1) (run cs initial) ∧
  next_sibling x (run cs initial) = Ok (l2 !! 0) (run cs initial).
Proof.
  intros Hd Hp Hl. destruct (disciplined_inv cs Hd) as [kids HI].
  rewrite (InvK_iterate _ kids p HI Hp) in Hl. injection Hl as Hk.
  destruct (InvK_neighbours _ kids p HI Hp l1 x l2 Hk) as (Hpv & Hnx & _).
  unfold previous_sibling, next_sibling. run_calls.
  unfold prev_of, next_of in Hpv, Hnx. by rewrite Hpv, Hnx.
Qed.

Lemma X6_witness :
  disciplined initial family = true ∧ live (run family initial) 0 ∧
  iterate (run family initial) 0 = Some ([1] ++ 2 :: []) ∧
  previous_sibling 2 (run family initial) = Ok (last [1]) (run family initial) ∧
  next_sibling 2 (run family initial) = Ok ([] !! 0) (run family initial).
Proof.
  assert (Hd : disciplined initial family = true) by (vm_compute; reflexivity).
  assert (Hp : live (run family initial) 0) by (unfold live; vm_compute; lia).
  assert (Hl : iterate (run family initial) 0 = Some ([1] ++ 2 :: []))
    by (vm_compute; reflexivity).
  split_and!; [done..| |];
    [exact (proj1 (X6_siblings_follow_iteration family 0 [1] 2 [] Hd Hp Hl))
    |exact (proj2 (X6_siblings_follow_iteration family 0 [1] 2 [] Hd Hp Hl))].
Defined.

(** X7: in a tree built by a disciplined program, [fetch_child_by_name]
    finds exactly the children: it returns a node [c] for a name exactly
    when iterating the children yields [c] and the name is that of [c], and
    it returns [None], without raising, for the name of any node that is
    not a child. *)
Theorem X7_fetch_child_by_name cs p :
  disciplined initial cs = true →
  live (run cs initial) p →
  ∃ l, iterate (run cs initial) p = Some l ∧
       (∀ k c, fetch_child_by_name p k (run cs initial)
               = Ok (Some c) (run cs initial) ↔
               c ∈ l ∧ name_of (run cs initial) c = k) ∧
       (∀ x, live (run cs initial) x → x ∉ l →
             fetch_child_by_name p (name_of (run cs initial) x) (run cs initial)
             = Ok None (run cs initial)).
Proof.
  intros Hd Hp. destruct (disciplined_inv cs Hd) as [kids HI].
  exists (kids p). split; [by apply InvK_iterate|].
  unfold fetch_child_by_name. run_calls.
  fold (cmap_of (run cs initial) p). split.
  - intros k c. rewrite <-(inv_cmap _ _ HI p k c Hp). split.
    + by intros [= ->].
    + by intros ->.
  - intros x Hx Hn. by rewrite (InvK_not_registered _ kids p HI Hp x Hx Hn).
Qed.

Lemma X7_witness :
  disciplined initial family = true ∧ live (run family initial) 0 ∧
  ∃ l, iterate (run family initial) 0 = Some l ∧
       (∀ k c, fetch_child_by_name 0 k (run family initial)
               = Ok (Some c) (run family initial) ↔
               c ∈ l ∧ name_of (run family initial) c = k) ∧
       (∀ x, live (run family initial) x → x ∉ l →
             fetch_child_by_name 0 (name_of (run family initial) x)
               (run family initial)
             = Ok None (run family initial)).
Proof.
  assert (Hd : disciplined initial family = true) by (vm_compute; reflexivity).
  assert (Hl : live (run family initial) 0) by (unfold live; vm_compute; lia).
  split_and!; [done..|].
  exact (X7_fetch_child_by_name family 0 Hd Hl).
Defined.

(** ** What the methods do in an arbitrary store *)

Section Frames.
Context {A B C : Type}.
Implicit Types (m : M A) (f : A → M B) (g : Node → C).

Lemma keeps_bind g m f :
  keeps g m → (∀ a, keeps g (f a)) → keeps g (bind m f).
Proof.
  intros Hm Hf s c. unfold bind. specialize (Hm s c).
  destruct (m s) as [a s1|e s1] eqn:E; simpl in *; [|done].
  by rewrite Hf.
Qed.

Lemma keeps_ret g (a : A) : keeps g (ret a).
Proof. by intros s c. Qed.

Lemma keeps_raise g e : keeps g (raise (A := A) e).
Proof. by intros s c. Qed.

Lemma keeps_getattr g (r : Node → A) o : keeps g (getattr r o).
Proof. by intros s c. Qed.

Lemma keeps_counters_bind m f :
  keeps_counters m → (∀ a, keeps_counters (f a)) → keeps_counters (bind m f).
Proof.
  intros Hm Hf s. unfold bind. specialize (Hm s).
  destruct (m s) as [a s1|e s1] eqn:E; simpl in *; [|done].
  destruct (Hf a s1) as [-> ->]. done.
Qed.

Lemma keeps_counters_ret (a : A) : keeps_counters (ret a).
Proof. by intros s. Qed.

Lemma keeps_counters_raise e : keeps_counters (raise (A := A) e).
Proof. by intros s. Qed.

Lemma keeps_counters_getattr (r : Node → A) o : keeps_counters (getattr r o).
Proof. by intros s. Qed.

Lemma raises_only_bind (E : exn → Prop) m f :
  raises_only E m → (∀ a, raises_only E (f a)) → raises_only E (bind m f).
Proof.
  intros Hm Hf s e s'. unfold bind. destruct (m s) as [a s1|e1 s1] eqn:Hs.
  - apply Hf.
  - intros [= -> ->]. by eapply Hm.
Qed.

Lemma raises_only_ret (E : exn → Prop) (a : A) : raises_only E (ret a).
Proof. by intros s e s'. Qed.

Lemma raises_only_getattr (E : exn → Prop) (r : Node → A) o :
  raises_only E (getattr r o).
Proof. by intros s e s'. Qed.

End Frames.

Lemma keeps_setattr {C} (g : Node → C) u o :
  (∀ n, g (u n) = g n) → keeps g (setattr u o).
Proof.
  intros Hu s c. simpl. unfold insert, fn_insert.
  destruct (decide (o = c)) as [->|]; [apply Hu|done].
Qed.

Lemma keeps_deref {C} (g : Node → C) r : keeps g (deref r).
Proof. by destruct r; intros s c. Qed.

Lemma keeps_counters_setattr u o : keeps_counters (setattr u o).
Proof. by intros s. Qed.

Lemma keeps_counters_deref r : keeps_counters (deref r).
Proof. by destruct r; intros s. Qed.

Lemma raises_only_setattr (E : exn → Prop) u o : raises_only E (setattr u o).
Proof. by intros s e s'. Qed.

Lemma raises_only_deref (E : exn → Prop) r :
  E AttributeError → raises_only E (deref r).
Proof. intros HE. destruct r; intros s e s'; [done|]. by intros [= <- _]. Qed.

Lemma raises_only_raise {A} (E : exn → Prop) e :
  E e → raises_only E (raise (A := A) e).
Proof. intros HE s e' s' [= <- _]. done. Qed.

Ltac frames :=
  repeat first
    [ apply keeps_bind; [|intros ?]
    | apply keeps_counters_bind; [|intros ?]
    | apply raises_only_bind; [|intros ?]
    | apply keeps_ret | apply keeps_raise | apply keeps_getattr
    | apply keeps_deref | apply keeps_setattr; done
    | apply keeps_counters_ret | apply keeps_counters_raise
    | apply keeps_counters_getattr | apply keeps_counters_deref
    | apply keeps_counters_setattr
    | apply raises_only_ret | apply raises_only_getattr
    | apply raises_only_setattr
    | apply raises_only_deref; done
    | apply raises_only_raise; done
    | case_decide | case_match ].

Ltac unfold_methods :=
  unfold insert_before, replace_child, remove_child, child_existence_required,
    has_as_child, append, list_insert_before, delete, cmap_setitem, cmap_pop.

Section Frames_of_methods.
Context {C : Type} (g : Node → C).
Hypothesis Hprev : ∀ v n, g (set_prev v n) = g n.
Hypothesis Hnext : ∀ v n, g (set_next v n) = g n.
Hypothesis Hhead : ∀ v n, g (set_head v n) = g n.
Hypothesis Htail : ∀ v n, g (set_tail v n) = g n.
Hypothesis Hcmap : ∀ v n, g (set_cmap v n) = g n.

(** An attribute that none of the five assignments of the module writes is
    left alone by the three mutation methods. *)
Lemma keeps_methods self a b ref :
  keeps g (insert_before self a ref) ∧
  keeps g (replace_child self a b) ∧
  keeps g (remove_child self a).
Proof using Hprev Hnext Hhead Htail Hcmap.
  split_and!; unfold_methods; frames.
Qed.

End Frames_of_methods.

Lemma keeps_counters_methods self a b ref :
  keeps_counters (insert_before self a ref) ∧
  keeps_counters (replace_child self a b) ∧
  keeps_counters (remove_child self a).
Proof. split_and!; unfold_methods; frames. Qed.

Lemma same_frame_methods s self a b ref :
  same_frame s (state_of (insert_before self a ref s)) ∧
  same_frame s (state_of (replace_child self a b s)) ∧
  same_frame s (state_of (remove_child self a s)).
Proof.
  destruct (keeps_methods name) with (self := self) (a := a) (b := b) (ref := ref)
    as (N1 & N2 & N3); [done..|].
  destruct (keeps_methods parent) with (self := self) (a := a) (b := b) (ref := ref)
    as (P1 & P2 & P3); [done..|].
  destruct (keeps_methods node_type) with (self := self) (a := a) (b := b)
    (ref := ref) as (T1 & T2 & T3); [done..|].
  destruct (keeps_counters_methods self a b ref) as (K1 & K2 & K3).
  unfold same_frame, name_of.
  split_and!; try apply K1; try apply K2; try apply K3; intros c;
    split_and!; auto.
Qed.

(** [delete] returns exactly when the two references it writes through are
    present, and raises [AttributeError] otherwise. *)
Lemma delete_outcome s p x :
  (head_of s p ≠ Some x → is_Some (prev_of s x)) ∧
  (tail_of s p ≠ Some x → is_Some (next_of s x)) ∧
  (∃ s1, delete p x s = Ok tt s1)
  ∨ ∃ s1, delete p x s = Raise AttributeError s1.
Proof.
  destruct (decide (head_of s p ≠ Some x → is_Some (prev_of s x))) as [H1|H1];
    [destruct (decide (tail_of s p ≠ Some x → is_Some (next_of s x)))
       as [H2|H2]|].
  - left. split_and!; [done..|].
    destruct (delete_spec s p x H1 H2) as (s1 & E & _). by exists s1.
  - right. assert (Ht : tail_of s p ≠ Some x) by (intros ?; by apply H2).
    assert (Hn : next_of s x = None).
    { apply eq_None_not_Some. intros ?. by apply H2. }
    unfold delete. unfold_attrs. run_monad.
    destruct (decide (head (children (heap s p)) ≠ Some x)) as [Hh|Hh].
    + destruct (H1 Hh) as [q Hq]. rewrite Hq. run_monad. attr_simpl.
      rewrite decide_True by done. run_monad. attr_simpl. rewrite Hn.
      destruct (decide (x = q)); run_monad; by eexists.
    + run_monad. attr_simpl. destruct (decide (p = p)) as [_|]; [|done].
      simpl. rewrite decide_True by done. run_monad. attr_simpl.
      rewrite Hn. run_monad. by eexists.
  - right. assert (Hh : head_of s p ≠ Some x) by (intros ?; by apply H1).
    assert (Hp : prev_of s x = None).
    { apply eq_None_not_Some. intros ?. by apply H1. }
    unfold delete. unfold_attrs. run_monad.
    rewrite decide_True by done. rewrite Hp. run_monad. by eexists.
Qed.

(** X8: in every store [insert_before] either raises [NotAChild], exactly
    when a reference is given that [has_as_child] rejects, and then changes
    nothing, or returns [new]; it raises no other exception.  After it
    returns, [fetch_child_by_name] finds [new] under its name and
    [has_as_child] holds of it; after an append, [new] is the tail and
    [has_children] is true. *)
Theorem X8_insert_then_lookup s p new ref :
  (∃ x, ref = Some x ∧ registered s p x = false ∧
        insert_before p new ref s = Raise NotAChild s)
  ∨ (∃ s', insert_before p new ref s = Ok new s' ∧
           (∀ x, ref = Some x → registered s p x = true) ∧
           fetch_child_by_name p (name_of s' new) s' = Ok (Some new) s' ∧
           has_as_child p (name_of s' new) s' = Ok true s' ∧
           (ref = None → tail_of s' p = Some new ∧
                         has_children p s' = Ok true s')).
Proof.
  assert (Hset : ∀ s1, ∃ s2,
            cmap_setitem p (name (heap s1 new)) new s1 = Ok tt s2 ∧
            tail_of s2 p = tail_of s1 p ∧
            fetch_child_by_name p (name_of s2 new) s2 = Ok (Some new) s2 ∧
            has_as_child p (name_of s2 new) s2 = Ok true s2).
  { intros s1.
    destruct (cmap_setitem_spec s1 p (name_of s1 new) new)
      as (s2 & E2 & F2 & _ & _ & _ & T2 & C2).
    exists s2. split_and!; [done|done|..];
      unfold fetch_child_by_name, has_as_child; run_calls;
      fold (cmap_of s2 p); rewrite C2, decide_True by done;
      rewrite (same_frame_name s1 s2 new F2), lookup_insert_eq; [done|].
    by rewrite bool_decide_true by done. }
  destruct ref as [x|].
  - destruct (registered s p x) eqn:Hr.
    + right. unfold insert_before, has_as_child. run_calls.
      unfold registered, cmap_of, name_of in Hr. rewrite Hr.
      destruct (list_insert_before_total s p x new) as (s1 & ->). run_calls.
      destruct (Hset s1) as (s2 & -> & _ & Hf & Hh).
      exists s2. split_and!; [done| |done|done|done].
      intros ? [= <-]. done.
    + left. exists x. split_and!; [done..|].
      apply insert_before_raise. by apply registered_false.
  - right. unfold insert_before. run_calls.
    destruct (append_spec s p new) as (s1 & -> & _ & _ & _ & _ & T1 & _).
    run_calls. destruct (Hset s1) as (s2 & -> & Ht & Hf & Hh).
    exists s2. split_and!; [done|done|done|done|]. intros _.
    assert (Ht2 : tail_of s2 p = Some new).
    { rewrite Ht, T1. by rewrite decide_True. }
    split; [done|]. unfold has_children. run_calls. unfold isempty.
    fold (tail_of s2 p). rewrite Ht2. simpl. by rewrite andb_false_r.
Qed.

(** X9: in every store [remove_child] raises [NotAChild] and changes nothing
    when [has_as_child] rejects the child, and otherwise either returns the
    child or raises [AttributeError]; it never raises [KeyError].  After it
    returns, [fetch_child_by_name] no longer finds the child's name, the
    child's own [prev] and [next] are what they were, and no name, node type
    or parent has changed. *)
Theorem X9_remove_child_outcomes s p x :
  (registered s p x = false ∧ remove_child p x s = Raise NotAChild s)
  ∨ (registered s p x = true ∧
     ((∃ s', remove_child p x s = Ok x s' ∧
             fetch_child_by_name p (name_of s' x) s' = Ok None s' ∧
             prev_of s' x = prev_of s x ∧ next_of s' x = next_of s x ∧
             same_frame s s')
      ∨ ∃ s', remove_child p x s = Raise AttributeError s')).
Proof.
  destruct (registered s p x) eqn:Hr.
  - right. split; [done|].
    assert (Hreg : is_Some (cmap_of s p !! name_of s x)).
    { unfold registered in Hr. by apply bool_decide_eq_true in Hr. }
    unfold remove_child. rewrite child_existence_required_pass by done.
    run_calls.
    destruct (delete_outcome s p x) as [(H1 & H2 & _)|[s1 ->]];
      [|right; by exists s1].
    left.
    destruct (delete_spec s p x H1 H2) as (s1 & -> & F1 & P1 & N1 & _ & _ & C1).
    destruct Hreg as [v Hv]. run_calls.
    destruct (cmap_pop_spec s1 p (name_of s1 x) v)
      as (s2 & E2 & F2 & P2 & N2 & _ & _ & C2).
    { by rewrite C1, (same_frame_name s s1 x F1). }
    unfold name_of in E2 at 1. rewrite E2. exists s2. split_and!.
    + done.
    + unfold fetch_child_by_name. run_calls. fold (cmap_of s2 p).
      rewrite C2, decide_True by done.
      by rewrite (same_frame_name s1 s2 x F2), lookup_delete_eq.
    + rewrite P2, P1. by destruct (decide _) as [[_ ?]|].
    + rewrite N2, N1. by destruct (decide _) as [[_ ?]|].
    + by eapply same_frame_trans.
  - left. split; [done|]. unfold remove_child.
    apply child_existence_required_raise. by apply registered_false.
Qed.

(** X10: in every store, and whether they return or raise, [insert_before],
    [replace_child] and [remove_child] change no node's name, node type or
    parent, allocate nothing and leave the name counter alone. *)
Theorem X10_methods_keep_identity s self a b ref :
  let unchanged s' :=
    nalloc s' = nalloc s ∧ _count s' = _count s ∧
    ∀ c, name_of s' c = name_of s c ∧
         parent (heap s' c) = parent (heap s c) ∧
         node_type (heap s' c) = node_type (heap s c) in
  unchanged (state_of (insert_before self a ref s)) ∧
  unchanged (state_of (replace_child self a b s)) ∧
  unchanged (state_of (remove_child self a s)).
Proof. exact (same_frame_methods s self a b ref). Qed.

Section Names.
Implicit Types (s : State) (k : call).

Lemma names_unique_frame s s' :
  same_frame s s' → names_unique s → names_unique s'.
Proof.
  intros (Hna & Hco & F) [Hu Hk]. unfold names_unique, live.
  rewrite Hna, Hco. split.
  - intros a b Ha Hb. rewrite !(proj1 (F _)). by apply Hu.
  - intros a Ha. rewrite (proj1 (F _)). by apply Hk.
Qed.

Lemma names_unique_exec s k : names_unique s → names_unique (exec k s).
Proof.
  intros HN. destruct k as [t par|self|self new ref|self old new|self child];
    unfold exec.
  - destruct HN as [Hu Hk].
    destruct (new_node_ok s t par) as (s' & -> & Hna & Hco & Hnew & Hold).
    unfold names_unique, live, name_of in *. simpl. rewrite Hna, Hco.
    assert (Hfresh : ∀ a, a < nalloc s → name (heap s a) ≠ mk_name (_count s)).
    { intros a Ha Hn. destruct (Hk a Ha) as (k & Hlt & Hn').
      rewrite Hn' in Hn. apply mk_name_inj in Hn. lia. }
    split.
    + intros a b Ha Hb.
      destruct (decide (a = nalloc s)) as [->|Hna'],
               (decide (b = nalloc s)) as [->|Hnb']; [done|..].
      * rewrite Hnew, (Hold b) by done. simpl. intros Hn.
        destruct (Hfresh b); [lia|done].
      * rewrite Hnew, (Hold a) by done. simpl. intros Hn.
        destruct (Hfresh a); [lia|done].
      * rewrite !Hold by done. apply Hu; lia.
    + intros a Ha. destruct (decide (a = nalloc s)) as [->|Hna'].
      * rewrite Hnew. simpl. exists (_count s). split; [lia|done].
      * rewrite Hold by done. destruct (Hk a) as (k & Hlt & Hn); [lia|].
        exists k. split; [lia|done].
  - destruct HN as [Hu Hk]. split; [done|].
    intros a Ha. destruct (Hk a Ha) as (k & Hlt & Hn).
    exists k. split; [simpl; lia|done].
  - eapply names_unique_frame; [|done].
    apply (same_frame_methods s self new new ref).
  - eapply names_unique_frame; [|done].
    apply (same_frame_methods s self old new None).
  - eapply names_unique_frame; [|done].
    apply (same_frame_methods s self child child None).
Qed.

End Names.

(** X11: names are unique for the lifetime of the process, in every
    program, disciplined or not: after any sequence of constructions,
    [make_name] calls and mutations, two different live nodes have different
    names, and every name is [node_k] for a value [k] that the counter has
    already passed. *)
Theorem X11_names_unique cs : names_unique (run cs initial).
Proof.
  assert (H : ∀ s, names_unique s → names_unique (run cs s)).
  { induction cs as [|k cs IH]; intros s Hs; [done|].
    apply IH. by apply names_unique_exec. }
  apply H. split; unfold live; simpl; intros; lia.
Qed.

(** X12: in every store [replace_child] raises [NotAChild] and changes
    nothing when [has_as_child] rejects [old], and otherwise either returns
    [old] or raises [AttributeError]; it never raises [KeyError], although
    it pops [old.name] without a default.  After it returns with [new]
    another node than [old], [old.prev] refers to [new]; when their names
    differ, [fetch_child_by_name] finds [new] and no longer finds [old]. *)
Theorem X12_replace_child_outcomes s p old new :
  (registered s p old = false ∧ replace_child p old new s = Raise NotAChild s)
  ∨ (registered s p old = true ∧
     ((∃ s', replace_child p old new s = Ok old s' ∧ same_frame s s' ∧
             (new ≠ old → prev_of s' old = Some new) ∧
             (name_of s new ≠ name_of s old →
              fetch_child_by_name p (name_of s' old) s' = Ok None s' ∧
              fetch_child_by_name p (name_of s' new) s' = Ok (Some new) s'))
      ∨ ∃ s', replace_child p old new s = Raise AttributeError s')).
Proof.
  destruct (registered s p old) eqn:Hr.
  - right. split; [done|].
    assert (Hreg : is_Some (cmap_of s p !! name_of s old)).
    { unfold registered in Hr. by apply bool_decide_eq_true in Hr. }
    unfold replace_child. rewrite child_existence_required_pass by done.
    run_calls.
    destruct (list_insert_before_total s p old new) as (s1 & E1).
    assert (F1 : same_frame s s1 ∧ ∀ c, cmap_of s1 c = cmap_of s c).
    { assert (Hk : keeps name (list_insert_before p old new)
                   ∧ keeps parent (list_insert_before p old new)
                   ∧ keeps node_type (list_insert_before p old new)
                   ∧ keeps _cmap (list_insert_before p old new)
                   ∧ keeps_counters (list_insert_before p old new))
        by (split_and!; unfold list_insert_before; frames).
      destruct Hk as (K1 & K2 & K3 & K4 & K5).
      specialize (K1 s). specialize (K2 s). specialize (K3 s).
      specialize (K4 s). specialize (K5 s). rewrite E1 in *. simpl in *.
      unfold same_frame, name_of, cmap_of. split_and!; try apply K5; auto. }
    destruct F1 as [F1 C1]. rewrite E1. run_calls.
    destruct (cmap_setitem_spec s1 p (name_of s1 new) new)
      as (s2 & E2 & F2 & P2 & N2 & H2 & T2 & C2).
    unfold name_of in E2 at 1. rewrite E2. run_calls.
    pose proof (same_frame_trans _ _ _ F1 F2) as F12.
    assert (Hc2 : cmap_of s2 p = <[name_of s new := new]> (cmap_of s p)).
    { by rewrite C2, decide_True, C1, (same_frame_name s s1 new F1). }
    destruct (delete_outcome s2 p old) as [(D1 & D2 & _)|[s3 ->]];
      [|right; by exists s3].
    left.
    destruct (delete_spec s2 p old D1 D2)
      as (s3 & -> & F3 & P3 & N3 & _ & _ & C3).
    run_calls.
    pose proof (same_frame_trans _ _ _ F12 F3) as F13.
    assert (Hpop : is_Some (cmap_of s3 p !! name_of s3 old)).
    { rewrite C3, Hc2, (same_frame_name s s3 old F13).
      destruct (decide (name_of s new = name_of s old)) as [->|Hne].
      - rewrite lookup_insert_eq. by eexists.
      - by rewrite lookup_insert_ne. }
    destruct Hpop as [v Hv].
    destruct (cmap_pop_spec s3 p (name_of s3 old) v Hv)
      as (s4 & E4 & F4 & P4 & N4 & _ & _ & C4).
    unfold name_of in E4 at 1. rewrite E4.
    pose proof (same_frame_trans _ _ _ F13 F4) as F14.
    exists s4. split_and!; [done|done| |].
    + intros Hne.
      destruct (list_insert_before_spec s p old new Hne)
        as (s1' & E1' & _ & P1 & _).
      assert (s1' = s1) as -> by congruence.
      rewrite P4, P3, P2, P1.
      destruct (decide _) as [[_ ?]|]; by rewrite decide_True.
    + intros Hne.
      assert (Hc4 : cmap_of s4 p
                    = base.delete (name_of s old)
                        (<[name_of s new := new]> (cmap_of s p))).
      { by rewrite C4, decide_True, C3, Hc2, (same_frame_name s s3 old F13). }
      unfold fetch_child_by_name. run_calls. fold (cmap_of s4 p).
      rewrite Hc4, (same_frame_name s s4 old F14),
        (same_frame_name s s4 new F14).
      rewrite lookup_delete_eq, lookup_delete_ne by done.
      by rewrite lookup_insert_eq.
  - left. split; [done|]. unfold replace_child.
    apply child_existence_required_raise. by apply registered_false.
Qed.

(** ** How the methods compose on a well-formed tree *)

Section Composition.
Implicit Types (s : State) (kids : loc → list loc) (p q c : loc).

(** Two well-formed stores with the same child lists and the same names
    show the same iterations and the same indexes. *)
Lemma InvK_same_view s kids s' kids' :
  InvK s kids → InvK s' kids' → same_frame s s' →
  (∀ q, kids' q = kids q) →
  ∀ q, live s q → iterate s' q = iterate s q ∧ cmap_of s' q = cmap_of s q.
Proof.
  intros HI HI' F Hk q Hq.
  assert (Hq' : live s' q) by (unfold live in *; by rewrite (proj1 F)).
  split.
  - by rewrite (InvK_iterate _ _ q HI Hq), (InvK_iterate _ _ q HI' Hq'), Hk.
  - apply map_eq. intros k. apply option_eq. intros v.
    rewrite (inv_cmap _ _ HI' q k v Hq'), (inv_cmap _ _ HI q k v Hq), Hk.
    by rewrite (same_frame_name s s' v F).
Qed.

Lemma same_frame_live s s' c : same_frame s s' → live s c → live s' c.
Proof. intros (Hn & _) Hc. unfold live in *. by rewrite Hn. Qed.

(** After a child has been removed or replaced it is in no child list. *)
Lemma detached_after_unlink s kids p x l :
  InvK s kids → live s p → x ∈ kids p → x ∉ l →
  ∀ s', nalloc s' = nalloc s → detached s' (<[p := l]> kids) x.
Proof.
  intros HI Hp Hx Hl s' Hn q Hq.
  assert (Hq' : live s q) by (unfold live in *; by rewrite <-Hn).
  destruct (decide (q = p)) as [->|Hne].
  - by rewrite fn_lookup_insert.
  - rewrite fn_lookup_insert_ne by done. intros Hxq.
    apply Hne. by apply (inv_disj _ _ HI q p x).
Qed.

End Composition.

(** X13: on a tree built by a disciplined program, [remove_child] of a
    child returns it, and the removed node is then no child any more: a
    second [remove_child] of it raises [NotAChild], and so does
    [insert_before] with it as the reference, both leaving the store as it
    is. *)
Theorem X13_remove_twice cs p l1 x l2 :
  disciplined initial cs = true →
  live (run cs initial) p →
  iterate (run cs initial) p = Some (l1 ++ x :: l2) →
  ∃ s', remove_child p x (run cs initial) = Ok x s' ∧
        remove_child p x s' = Raise NotAChild s' ∧
        ∀ new, insert_before p new (Some x) s' = Raise NotAChild s'.
Proof.
  intros Hd Hp Hl. destruct (disciplined_inv cs Hd) as [kids HI].
  rewrite (InvK_iterate _ kids p HI Hp) in Hl. injection Hl as Hk.
  destruct (InvK_neighbours _ kids p HI Hp l1 x l2 Hk)
    as (_ & _ & Hx1 & Hx2 & Hx).
  destruct (remove_child_ok _ kids p x l1 l2 HI Hp Hk)
    as (s' & E & F & HI' & _).
  assert (Hnone : cmap_of s' p !! name_of s' x = None).
  { apply (InvK_not_registered s' _ p HI'); [by eapply same_frame_live..|].
    rewrite fn_lookup_insert. by intros [?|?]%elem_of_app. }
  exists s'. split_and!; [done| |].
  - unfold remove_child. by apply child_existence_required_raise.
  - intros new. by apply insert_before_raise.
Qed.

Lemma X13_witness :
  disciplined initial family = true ∧ live (run family initial) 0 ∧
  iterate (run family initial) 0 = Some ([] ++ 1 :: [2]) ∧
  ∃ s', remove_child 0 1 (run family initial) = Ok 1 s' ∧
        remove_child 0 1 s' = Raise NotAChild s' ∧
        ∀ new, insert_before 0 new (Some 1) s' = Raise NotAChild s'.
Proof.
  assert (Hd : disciplined initial family = true) by (vm_compute; reflexivity).
  assert (Hp : live (run family initial) 0) by (unfold live; vm_compute; lia).
  assert (Hl : iterate (run family initial) 0 = Some ([] ++ 1 :: [2]))
    by (vm_compute; reflexivity).
  split_and!; [done..|].
  exact (X13_remove_twice family 0 [] 1 [2] Hd Hp Hl).
Defined.

(** X14: on a tree built by a disciplined program, inserting a node that is
    in no child list and then removing it again is a round trip: whatever
    the reference was (absent, a child, or not a child, in which case both
    calls raise [NotAChild]), every node has the same iterated children and
    the same index as before. *)
Theorem X14_insert_remove_round_trip cs p new ref :
  disciplined initial cs = true →
  live (run cs initial) p → live (run cs initial) new →
  (∀ x, ref = Some x → live (run cs initial) x) →
  unattached (run cs initial) new = true →
  ∀ q, live (run cs initial) q →
       iterate (run [InsertBefore p new ref; RemoveChild p new]
                    (run cs initial)) q
       = iterate (run cs initial) q ∧
       cmap_of (run [InsertBefore p new ref; RemoveChild p new]
                    (run cs initial)) q
       = cmap_of (run cs initial) q.
Proof.
  intros Hd Hp Hn Hr Hu. destruct (disciplined_inv cs Hd) as [kids HI].
  remember (run cs initial) as s eqn:Hs. clear Hs Hd cs.
  pose proof (unattached_detached s kids new HI Hu) as Hdet.
  assert (Hnone : cmap_of s p !! name_of s new = None).
  { apply (InvK_not_registered s kids p HI Hp new Hn). by apply Hdet. }
  assert (Hgo : ∀ l1 l2 s1,
            kids p = l1 ++ l2 →
            insert_before p new ref s = Ok new s1 → same_frame s s1 →
            InvK s1 (<[p := l1 ++ new :: l2]> kids) →
            ∀ q, live s q →
              iterate (run [InsertBefore p new ref; RemoveChild p new] s) q
              = iterate s q ∧
              cmap_of (run [InsertBefore p new ref; RemoveChild p new] s) q
              = cmap_of s q).
  { intros l1 l2 s1 Hk E1 F1 HI1.
    destruct (remove_child_ok s1 _ p new l1 l2 HI1) as (s2 & E2 & F2 & HI2 & _);
      [by eapply same_frame_live|by rewrite fn_lookup_insert|].
    unfold run. simpl. rewrite E1. simpl. rewrite E2. simpl.
    eapply (InvK_same_view s kids s2); [done|done| |].
    - by eapply same_frame_trans.
    - intros q. unfold insert, fn_insert.
      destruct (decide (p = q)) as [<-|]; [by rewrite Hk|done]. }
  destruct ref as [r|].
  - destruct (cmap_of s p !! name_of s r) as [v|] eqn:Hv.
    + destruct (registered_split s kids p r) as (l1 & l2 & Hk);
        [done|done|by apply Hr|by rewrite Hv|].
      destruct (insert_before_Some_ok s kids p new r l1 l2)
        as (s1 & E1 & F1 & HI1); [done..|].
      by apply (Hgo l1 (r :: l2) s1).
    + intros q Hq. unfold run. simpl.
      rewrite insert_before_raise by done. simpl.
      unfold remove_child.
      by rewrite child_existence_required_raise by done.
  - destruct (insert_before_None_ok s kids p new) as (s1 & E1 & F1 & HI1);
      [done..|].
    apply (Hgo (kids p) [] s1); [by rewrite app_nil_r|done..].
Qed.

Lemma X14_witness :
  disciplined initial family = true ∧
  live (run family initial) 0 ∧ live (run family initial) 3 ∧
  unattached (run family initial) 3 = true ∧
  iterate (run [InsertBefore 0 3 (Some 2); RemoveChild 0 3]
               (run family initial)) 0
  = iterate (run family initial) 0 ∧
  cmap_of (run [InsertBefore 0 3 (Some 2); RemoveChild 0 3]
               (run family initial)) 0
  = cmap_of (run family initial) 0.
Proof.
  assert (Hd : disciplined initial family = true) by (vm_compute; reflexivity).
  assert (Hp : live (run family initial) 0) by (unfold live; vm_compute; lia).
  assert (Hn : live (run family initial) 3) by (unfold live; vm_compute; lia).
  assert (Hr : ∀ x, Some 2 = Some x → live (run family initial) x).
  { intros x [= <-]. unfold live. vm_compute. lia. }
  assert (Hu : unattached (run family initial) 3 = true)
    by (vm_compute; reflexivity).
  split_and!; [done..| |];
    [exact (proj1 (X14_insert_remove_round_trip family 0 3 (Some 2)
                     Hd Hp Hn Hr Hu 0 Hp))
    |exact (proj2 (X14_insert_remove_round_trip family 0 3 (Some 2)
                     Hd Hp Hn Hr Hu 0 Hp))].
Defined.

(** X15: on a tree built by a disciplined program, a child can be moved:
    [remove_child(x)] on its parent followed by [insert_before(x)] on any
    node [q] makes [x] the last child of [q], after the children [q] had
    (without [x] when [q] is the old parent), and the old parent keeps its
    other children in order; the stale [prev] and [next] of the removed
    node do no harm. *)
Theorem X15_move_child cs p q l1 x l2 :
  disciplined initial cs = true →
  live (run cs initial) p → live (run cs initial) q →
  iterate (run cs initial) p = Some (l1 ++ x :: l2) →
  ∃ lq, iterate (run cs initial) q = Some lq ∧
        iterate (run [RemoveChild p x; InsertBefore q x None] (run cs initial)) q
        = Some ((if decide (q = p) then l1 ++ l2 else lq) ++ [x]) ∧
        (q ≠ p →
         iterate (run [RemoveChild p x; InsertBefore q x None] (run cs initial)) p
         = Some (l1 ++ l2)).
Proof.
  intros Hd Hp Hq Hl. destruct (disciplined_inv cs Hd) as [kids HI].
  remember (run cs initial) as s eqn:Hs. clear Hs Hd cs.
  rewrite (InvK_iterate _ kids p HI Hp) in Hl. injection Hl as Hk.
  destruct (InvK_neighbours _ kids p HI Hp l1 x l2 Hk)
    as (_ & _ & Hx1 & Hx2 & Hx).
  destruct (remove_child_ok _ kids p x l1 l2 HI Hp Hk)
    as (s1 & E1 & F1 & HI1 & _).
  assert (Hdet : detached s1 (<[p := l1 ++ l2]> kids) x).
  { eapply detached_after_unlink; [done|done| | |by destruct F1].
    - rewrite Hk. apply elem_of_app. right. by left.
    - by intros [?|?]%elem_of_app. }
  destruct (insert_before_None_ok s1 _ q x HI1) as (s2 & E2 & F2 & HI2);
    [by eapply same_frame_live..|done|].
  pose proof (same_frame_trans _ _ _ F1 F2) as F12.
  exists (kids q). split; [by apply InvK_iterate|].
  unfold run. simpl. rewrite E1. simpl. rewrite E2. simpl. split.
  - rewrite (InvK_iterate s2 _ q HI2) by (by eapply same_frame_live).
    rewrite fn_lookup_insert. unfold insert, fn_insert.
    destruct (decide (p = q)) as [->|Hne].
    + by rewrite decide_True.
    + by rewrite decide_False by done.
  - intros Hne.
    rewrite (InvK_iterate s2 _ p HI2) by (by eapply same_frame_live).
    by rewrite fn_lookup_insert_ne, fn_lookup_insert by done.
Qed.

Lemma X15_witness :
  disciplined initial family = true ∧
  live (run family initial) 0 ∧ live (run family initial) 3 ∧
  iterate (run family initial) 0 = Some ([] ++ 1 :: [2]) ∧
  ∃ lq, iterate (run family initial) 3 = Some lq ∧
        iterate (run [RemoveChild 0 1; InsertBefore 3 1 None]
                     (run family initial)) 3
        = Some ((if decide (3 = 0) then [] ++ [2] else lq) ++ [1]) ∧
        (3 ≠ 0 →
         iterate (run [RemoveChild 0 1; InsertBefore 3 1 None]
                      (run family initial)) 0
         = Some ([] ++ [2])).
Proof.
  assert (Hd : disciplined initial family = true) by (vm_compute; reflexivity).
  assert (Hp : live (run family initial) 0) by (unfold live; vm_compute; lia).
  assert (Hq : live (run family initial) 3) by (unfold live; vm_compute; lia).
  assert (Hl : iterate (run family initial) 0 = Some ([] ++ 1 :: [2]))
    by (vm_compute; reflexivity).
  split_and!; [done..|].
  exact (X15_move_child family 0 3 [] 1 [2] Hd Hp Hq Hl).
Defined.

(** X16: on a tree built by a disciplined program, [replace_child(old,
    new)] with [new] in no child list, followed by [replace_child(new,
    old)], is a round trip: every node has the same iterated children and
    the same index as before, and [new] is in no child list again. *)
Theorem X16_replace_round_trip cs p l1 old l2 new :
  disciplined initial cs = true →
  live (run cs initial) p → live (run cs initial) new →
  unattached (run cs initial) new = true →
  iterate (run cs initial) p = Some (l1 ++ old :: l2) →
  unattached (run [ReplaceChild p old new; ReplaceChild p new old]
                  (run cs initial)) new = true ∧
  ∀ q, live (run cs initial) q →
       iterate (run [ReplaceChild p old new; ReplaceChild p new old]
                    (run cs initial)) q
       = iterate (run cs initial) q ∧
       cmap_of (run [ReplaceChild p old new; ReplaceChild p new old]
                    (run cs initial)) q
       = cmap_of (run cs initial) q.
Proof.
  intros Hd Hp Hn Hu Hl. destruct (disciplined_inv cs Hd) as [kids HI].
  remember (run cs initial) as s eqn:Hs. clear Hs Hd cs.
  rewrite (InvK_iterate _ kids p HI Hp) in Hl. injection Hl as Hk.
  pose proof (unattached_detached s kids new HI Hu) as Hdet.
  destruct (InvK_neighbours _ kids p HI Hp l1 old l2 Hk)
    as (_ & _ & Ho1 & Ho2 & Ho).
  assert (Hne : old ≠ new).
  { intros ->. apply (Hdet p Hp). rewrite Hk. apply elem_of_app.
    right. by left. }
  destruct (replace_child_ok s kids p old new l1 l2 HI Hp Hn Hdet Hk)
    as (s1 & E1 & F1 & HI1 & _).
  assert (Hdet1 : detached s1 (<[p := l1 ++ new :: l2]> kids) old).
  { eapply detached_after_unlink; [done|done| | |by destruct F1].
    - rewrite Hk. apply elem_of_app. right. by left.
    - by intros [?|[?|?]%elem_of_cons]%elem_of_app. }
  destruct (replace_child_ok s1 _ p new old l1 l2 HI1)
    as (s2 & E2 & F2 & HI2 & _);
    [by eapply same_frame_live..|done|by rewrite fn_lookup_insert|].
  pose proof (same_frame_trans _ _ _ F1 F2) as F12.
  unfold run. simpl. rewrite E1. simpl. rewrite E2. simpl.
  assert (Hkids : ∀ q, (<[p:=l1 ++ old :: l2]> (<[p:=l1 ++ new :: l2]> kids)) q
                       = kids q).
  { intros q. unfold insert, fn_insert.
    destruct (decide (p = q)) as [<-|]; [by rewrite Hk|done]. }
  split.
  - apply (detached_unattached s2 _ new HI2). intros q Hq.
    rewrite Hkids. apply Hdet. unfold live in *.
    by rewrite <-(same_frame_nalloc s s2 F12).
  - by apply (InvK_same_view s kids s2 _ HI HI2 F12 Hkids).
Qed.

Lemma X16_witness :
  disciplined initial family = true ∧
  live (run family initial) 0 ∧ live (run family initial) 3 ∧
  unattached (run family initial) 3 = true ∧
  iterate (run family initial) 0 = Some ([1] ++ 2 :: []) ∧
  unattached (run [ReplaceChild 0 2 3; ReplaceChild 0 3 2]
                  (run family initial)) 3 = true.
Proof.
  assert (Hd : disciplined initial family = true) by (vm_compute; reflexivity).
  assert (Hp : live (run family initial) 0) by (unfold live; vm_compute; lia).
  assert (Hn : live (run family initial) 3) by (unfold live; vm_compute; lia).
  assert (Hu : unattached (run family initial) 3 = true)
    by (vm_compute; reflexivity).
  assert (Hl : iterate (run family initial) 0 = Some ([1] ++ 2 :: []))
    by (vm_compute; reflexivity).
  split_and!; [done..|].
  exact (proj1 (X16_replace_round_trip family 0 [1] 2 [] 3 Hd Hp Hn Hu Hl)).
Defined.

Section Safety.
Implicit Types (s : State) (k : call).

Lemma disciplined_app s cs1 cs2 :
  disciplined s (cs1 ++ cs2) = true ↔
  disciplined s cs1 = true ∧ disciplined (run cs1 s) cs2 = true.
Proof.
  revert s. induction cs1 as [|k cs1 IH]; intros s; simpl; [tauto|].
  rewrite !andb_true_iff, IH. tauto.
Qed.

Lemma call_outcome_inv s k :
  Inv s → live_args s k = true → attaches_unattached s k = true →
  call_raised k s = None
  ∨ call_raised k s = Some NotAChild ∧ exec k s = s.
Proof.
  intros [kids HI] Hlive Hatt.
  destruct k as [t par|self|self new ref|self old new|self child];
    unfold call_raised, exec; cbn [live_args attaches_unattached] in *.
  - left. by destruct (new_node_ok s t par) as (s' & -> & _).
  - by left.
  - apply andb_prop in Hlive as [[Hs Hn]%andb_prop Hr].
    apply is_live_spec in Hs, Hn.
    destruct ref as [r|].
    + simpl in Hr. apply is_live_spec in Hr. unfold registered in Hatt.
      destruct (cmap_of s self !! name_of s r) as [v|] eqn:Hv.
      * rewrite bool_decide_true in Hatt by done.
        pose proof (unattached_detached s kids new HI Hatt) as Hdet.
        destruct (registered_split s kids self r) as (l1 & l2 & Hk);
          [done..|by rewrite Hv|].
        destruct (insert_before_Some_ok s kids self new r l1 l2)
          as (s' & -> & _); [done..|].
        by left.
      * right. by rewrite insert_before_raise by done.
    + pose proof (unattached_detached s kids new HI Hatt) as Hdet.
      destruct (insert_before_None_ok s kids self new) as (s' & -> & _);
        [done..|].
      by left.
  - apply andb_prop in Hlive as [[Hs Ho]%andb_prop Hn].
    apply is_live_spec in Hs, Ho, Hn. unfold registered in Hatt.
    destruct (cmap_of s self !! name_of s old) as [v|] eqn:Hv.
    + rewrite bool_decide_true in Hatt by done.
      pose proof (unattached_detached s kids new HI Hatt) as Hdet.
      destruct (registered_split s kids self old) as (l1 & l2 & Hk);
        [done..|by rewrite Hv|].
      destruct (replace_child_ok s kids self old new l1 l2)
        as (s' & -> & _); [done..|].
      by left.
    + right. unfold replace_child.
      by rewrite child_existence_required_raise by done.
  - apply andb_prop in Hlive as [Hs Hc]. apply is_live_spec in Hs, Hc.
    destruct (cmap_of s self !! name_of s child) as [v|] eqn:Hv.
    + destruct (registered_split s kids self child) as (l1 & l2 & Hk);
        [done..|by rewrite Hv|].
      destruct (remove_child_ok s kids self child l1 l2)
        as (s' & -> & _); [done..|].
      by left.
    + right. unfold remove_child.
      by rewrite child_existence_required_raise by done.
Qed.

End Safety.

(** X17: in a disciplined program no call ever raises [AttributeError] or
    [KeyError]: every call either returns, or raises [NotAChild] and leaves
    the store exactly as it was. *)
Theorem X17_disciplined_calls_are_safe cs k :
  disciplined initial (cs ++ [k]) = true →
  call_raised k (run cs initial) = None
  ∨ call_raised k (run cs initial) = Some NotAChild ∧
    exec k (run cs initial) = run cs initial.
Proof.
  intros [Hd Hk]%disciplined_app. simpl in Hk.
  apply andb_prop in Hk as [[Hl Ha]%andb_prop _].
  apply call_outcome_inv; [by apply disciplined_inv|done..].
Qed.

Lemma X17_witness :
  disciplined initial (family ++ [RemoveChild 0 3]) = true ∧
  (call_raised (RemoveChild 0 3) (run family initial) = None
   ∨ call_raised (RemoveChild 0 3) (run family initial) = Some NotAChild ∧
     exec (RemoveChild 0 3) (run family initial) = run family initial).
Proof.
  assert (Hd : disciplined initial (family ++ [RemoveChild 0 3]) = true)
    by (vm_compute; reflexivity).
  split; [done|].
  exact (X17_disciplined_calls_are_safe family (RemoveChild 0 3) Hd).
Defined.

(** ** [replace_child] on a well-linked child list of any tree *)

Section Local.
Implicit Types (s : State) (p c : loc).

Lemma iter_from_cons_inv h fuel cur c l :
  iter_from h fuel cur = Some (c :: l) →
  cur = Some c ∧ ∃ fuel', fuel = S fuel' ∧ iter_from h fuel' (next (h c)) = Some l.
Proof.
  destruct cur as [c'|]; [|by destruct fuel].
  destruct fuel as [|fuel']; [done|]. simpl.
  destruct (iter_from h fuel' (next (h c'))) as [l'|] eqn:E; [|done].
  simpl. intros [= -> ->]. split; [done|]. by exists fuel'.
Qed.

Lemma iter_from_nil_inv h fuel cur : iter_from h fuel cur = Some [] → cur = None.
Proof.
  destruct cur as [c|]; [|done]. destruct fuel as [|fuel']; [done|]. simpl.
  by destruct (iter_from h fuel' (next (h c))).
Qed.

Lemma names_unique_run cs s : names_unique s → names_unique (run cs s).
Proof.
  revert s. induction cs as [|k cs IH]; intros s Hs; [done|].
  apply IH. by apply names_unique_exec.
Qed.

Lemma names_unique_initial : names_unique initial.
Proof. split; unfold live; simpl; intros; lia. Qed.

(** The steps of [replace_child(A, C)] on a list whose links around [A] and
    [B] are in order. *)
Lemma replace_child_two s (P A B C v : loc) :
  C ≠ A → C ≠ B → A ≠ B → 2 ≤ nalloc s →
  head_of s P = Some A → tail_of s P = Some B →
  prev_of s A = None → next_of s A = Some B → next_of s B = None →
  name_of s C ≠ name_of s A →
  cmap_of s P !! name_of s A = Some v →
  ∃ s', replace_child P A C s = Ok A s' ∧
        iterate s' P = Some [C; B] ∧
        has_as_child P (name_of s' A) s' = Ok false s' ∧
        has_as_child P (name_of s' C) s' = Ok true s'.
Proof.
  intros HCA HCB HAB Hfuel Hh Ht HpA HnA HnB Hnm HcA.
  destruct (list_insert_before_spec s P A C HCA)
    as (s1 & E1 & F1 & P1 & N1 & H1 & T1 & C1).
  destruct (cmap_setitem_spec s1 P (name_of s1 C) C)
    as (s2 & E2 & F2 & P2 & N2 & H2 & T2 & C2).
  assert (Hh2 : head_of s2 P = Some C).
  { rewrite H2, H1. by rewrite decide_True. }
  assert (Ht2 : tail_of s2 P = Some B) by (by rewrite T2, T1).
  assert (HpA2 : prev_of s2 A = Some C).
  { rewrite P2, P1. by rewrite decide_True. }
  assert (HnA2 : next_of s2 A = Some B).
  { rewrite N2, N1, HpA. rewrite decide_False by done.
    by rewrite decide_False by done. }
  assert (HnB2 : next_of s2 B = None).
  { rewrite N2, N1, HpA. rewrite decide_False by done.
    by rewrite decide_False by done. }
  destruct (delete_spec s2 P A) as (s3 & E3 & F3 & P3 & N3 & H3 & T3 & C3).
  { intros _. by rewrite HpA2. }
  { intros _. by rewrite HnA2. }
  pose proof (same_frame_trans _ _ _ F1 F2) as F12.
  pose proof (same_frame_trans _ _ _ F12 F3) as F13.
  assert (HcA3 : cmap_of s3 P !! name_of s3 A = Some v).
  { rewrite C3, C2, decide_True, C1 by done.
    rewrite (same_frame_name s s1 C F1), (same_frame_name s s3 A F13).
    by rewrite lookup_insert_ne. }
  destruct (cmap_pop_spec s3 P (name_of s3 A) v HcA3)
    as (s4 & E4 & F4 & P4 & N4 & H4 & T4 & C4).
  pose proof (same_frame_trans _ _ _ F13 F4) as F14.
  assert (Hc4 : cmap_of s4 P
                = base.delete (name_of s A) (<[name_of s C := C]> (cmap_of s P))).
  { rewrite C4, decide_True, C3, C2, decide_True, C1 by done.
    by rewrite (same_frame_name s s1 C F1), (same_frame_name s s3 A F13). }
  exists s4. split_and!.
  - unfold replace_child. rewrite child_existence_required_pass by (by eexists).
    run_calls. rewrite E1. run_calls. unfold name_of in E2. rewrite E2.
    run_calls. rewrite E3. run_calls. unfold name_of in E4. by rewrite E4.
  - unfold iterate. fold (head_of s4 P).
    rewrite H4, H3, Hh2. rewrite decide_False by (by intros [_ [= ->]]).
    rewrite (same_frame_nalloc s s4 F14).
    destruct (nalloc s) as [|[|n]]; [lia..|]. simpl.
    fold (next_of s4 C). rewrite N4, N3, HnA2, HpA2, Hh2.
    rewrite decide_True by (split; [by intros [= ->]|done]). simpl.
    destruct n as [|n]; simpl;
      fold (next_of s4 B); rewrite N4, N3, HnB2, HpA2;
      rewrite decide_False by (by intros [_ [= ->]]); done.
  - unfold has_as_child. run_calls. fold (cmap_of s4 P).
    rewrite bool_decide_false; [done|].
    rewrite Hc4, (same_frame_name s s4 A F14), lookup_delete_eq.
    by intros [? ?].
  - unfold has_as_child. run_calls. fold (cmap_of s4 P).
    rewrite bool_decide_true; [done|].
    rewrite Hc4, (same_frame_name s s4 C F14).
    rewrite lookup_delete_ne by done. rewrite lookup_insert_eq. by eexists.
Qed.

End Local.

(** X18: in any tree, built by any program, disciplined or not: if the
    child list of [P] iterates [A; B], is doubly linked, and [P] has [A] in
    its index, then for a third node [C], [replace_child(A, C)] returns [A],
    after which iteration yields [C; B], [has_as_child(A)] is false and
    [has_as_child(C)] is true, whatever state the other child lists are in
    and wherever [C] was. *)
Theorem X18_replace_child_well_linked cs (P A B C : loc) :
  live (run cs initial) A → live (run cs initial) C →
  C ≠ A → C ≠ B →
  iterate (run cs initial) P = Some [A; B] →
  doubly_linked (run cs initial) P [A; B] →
  registered (run cs initial) P A = true →
  ∃ s', replace_child P A C (run cs initial) = Ok A s' ∧
        iterate s' P = Some [C; B] ∧
        has_as_child P (name_of s' A) s' = Ok false s' ∧
        has_as_child P (name_of s' C) s' = Ok true s'.
Proof.
  intros HA HC HCA HCB Hit (Hprev & Hnext & Hhp & Htn & _) Hreg.
  remember (run cs initial) as s eqn:Hs.
  assert (HN : names_unique s).
  { subst s. apply names_unique_run, names_unique_initial. }
  clear Hs.
  unfold iterate in Hit. fold (head_of s P) in Hit.
  apply iter_from_cons_inv in Hit as (Hh & f1 & _ & Hit).
  fold (next_of s A) in Hit.
  apply iter_from_cons_inv in Hit as (HnA & f2 & _ & Hit).
  fold (next_of s B) in Hit.
  apply iter_from_nil_inv in Hit as HnB.
  assert (HAB : A ≠ B) by (intros ->; congruence).
  assert (HpA : prev_of s A = None) by (by rewrite Hh in Hhp).
  assert (Ht : tail_of s P = Some B).
  { destruct (decide (tail_of s P = Some B)) as [|Hne]; [done|].
    rewrite Forall_forall in Hnext.
    assert (HB : B ∈ [A; B]) by (right; left).
    specialize (Hnext B HB Hne). by rewrite HnB in Hnext. }
  assert (Hnm : name_of s C ≠ name_of s A).
  { intros Hn. by apply (proj1 HN) in Hn. }
  unfold registered in Hreg. apply bool_decide_eq_true in Hreg as [v Hv].
  apply (replace_child_two s P A B C v); try done.
  unfold live in *. lia.
Qed.

Lemma X18_witness :
  live (run (two_parents ++ [New ELEMENT None; New ELEMENT None;
                             InsertBefore 1 3 None])
            initial) 2 ∧
  iterate (run (two_parents ++ [New ELEMENT None; New ELEMENT None;
                                InsertBefore 1 3 None])
               initial) 1 = Some [2; 3] ∧
  ∃ s', replace_child 1 2 4
          (run (two_parents ++ [New ELEMENT None; New ELEMENT None;
                                InsertBefore 1 3 None]) initial)
        = Ok 2 s' ∧
        iterate s' 1 = Some [4; 3].
Proof.
  set (cs := two_parents ++ [New ELEMENT None; New ELEMENT None;
                             InsertBefore 1 3 None]).
  assert (HA : live (run cs initial) 2) by (unfold live; vm_compute; lia).
  assert (HC : live (run cs initial) 4) by (unfold live; vm_compute; lia).
  assert (Hl : iterate (run cs initial) 1 = Some [2; 3])
    by (vm_compute; reflexivity).
  assert (Hd : doubly_linked (run cs initial) 1 [2; 3]).
  { apply (bool_decide_unpack _). vm_compute. exact I. }
  assert (Hr : registered (run cs initial) 1 2 = true)
    by (vm_compute; reflexivity).
  split_and!; [exact HA|exact Hl|].
  destruct (X18_replace_child_well_linked cs 1 2 3 4 HA HC) as (s' & E & Hi & _);
    [lia|lia|exact Hl|exact Hd|exact Hr|].
  exists s'. by split.
Defined.
